(** * jenkins-bt: dependency layering and phase execution

    A shallow embedding of [main.py]: the dependency graph builder
    ([build_graph]), the phase scheduler ([get_topo_sort]), the exclusion
    filter ([filter_excluded_nodes]), the status aggregation
    ([resolve_statuses]), the phase orchestrator ([build_phase]) and the
    pipeline driver ([main]).

    Python objects that are shared and mutated in place (the [Node]s of the
    graph) live in a store keyed by the node name: [build_graph] creates
    exactly one [Node] per alias, so the name identifies the object. *)

From Stdlib Require Import ZArith QArith Qcanon.
From stdpp Require Import gmap strings list fin_maps relations.

Local Open Scope Z_scope.

(** ** Outcomes of fallible code *)

(** The Python exceptions the modelled code can raise. *)
Inductive exn : Type :=
  | AttributeError   (* attribute access on [None] *)
  | KeyError         (* missing dict key, or [set.remove] of an absent element *)
  | IOError          (* raised by [get_build_stage_info] *)
  | JenkinsException (* any error raised by the Jenkins client *).

(** A computation returns a value, raises, or is still looping when the
    step budget of the model runs out. *)
Inductive result (A : Type) : Type :=
  | Ok (a : A)
  | Raise (e : exn)
  | OutOfFuel.
Arguments Ok {A} a.
Arguments Raise {A} e.
Arguments OutOfFuel {A}.

Global Instance exn_eq_dec : EqDecision exn.
Proof. solve_decision. Defined.

(** ** Data model *)

(** [class BuildStatus(Enum)] *)
Inductive BuildStatus : Type := IN_PROGRESS | SUCCESS | FAILED.

Global Instance BuildStatus_eq_dec : EqDecision BuildStatus.
Proof. solve_decision. Defined.

(** [class Node]: [children] holds references to other nodes, modelled by
    their names. *)
Record Node : Type := mkNode {
  name : string;
  inbound : Z;
  children : list string
}.

(** [Node(alias)] *)
Definition new_node (alias : string) : Node :=
  {| name := alias; inbound := 0; children := [] |}.

(** [node.children.append(src)] *)
Definition append_child (src : string) (n : Node) : Node :=
  {| name := name n; inbound := inbound n; children := children n ++ [src] |}.

(** [node.inbound += d] *)
Definition add_inbound (d : Z) (n : Node) : Node :=
  {| name := name n; inbound := inbound n + d; children := children n |}.

(** ** Dependency graph builder *)

(** First loop of [build_graph]: one fresh node per alias. *)
Definition init_nodes (aliases : gmap string string) : gmap string Node :=
  map_imap (λ alias _, Some (new_node alias)) aliases.

(** Body of the second loop of [build_graph], for one [dep].  [dict.get]
    yields [None] for an undeclared alias; [dst_node.children] then raises
    [AttributeError], and so does [src_node.inbound] after [None] has been
    appended to the children of the prerequisite. *)
Definition add_dep (g : gmap string Node) (dep : string * string)
    : result (gmap string Node) :=
  let src_node := g !! dep.1 in
  let dst_node := g !! dep.2 in
  match dst_node with
  | None => Raise AttributeError
  | Some _ =>
      let g1 := alter (append_child dep.1) dep.2 g in
      match src_node with
      | None => Raise AttributeError
      | Some _ => Ok (alter (add_inbound 1) dep.1 g1)
      end
  end.

Fixpoint add_deps (g : gmap string Node) (dependencies : list (string * string))
    : result (gmap string Node) :=
  match dependencies with
  | [] => Ok g
  | dep :: rest =>
      match add_dep g dep with
      | Ok g' => add_deps g' rest
      | Raise e => Raise e
      | OutOfFuel => OutOfFuel
      end
  end.

Definition build_graph (aliases : gmap string string)
    (dependencies : list (string * string)) : result (gmap string Node) :=
  add_deps (init_nodes aliases) dependencies.

(** ** Phase scheduler *)

(** Innermost loop of [get_topo_sort]: [for child in node.children].  A child
    is a reference to a live object, so the lookup cannot fail on a store
    whose children are all allocated; the model raises there. *)
Fixpoint visit_children (g : gmap string Node) (cs : list string)
    (next_queue : list string) : result (gmap string Node * list string) :=
  match cs with
  | [] => Ok (g, next_queue)
  | child :: cs' =>
      match g !! child with
      | None => Raise AttributeError
      | Some n =>
          let n' := add_inbound (-1) n in
          visit_children (<[child := n']> g) cs'
            (if decide (inbound n' = 0) then next_queue ++ [child] else next_queue)
      end
  end.

(** [for node in current_queue] *)
Fixpoint visit_queue (g : gmap string Node) (queue : list string)
    (next_queue : list string) : result (gmap string Node * list string) :=
  match queue with
  | [] => Ok (g, next_queue)
  | node :: queue' =>
      match g !! node with
      | None => Raise AttributeError
      | Some n =>
          match visit_children g (children n) next_queue with
          | Ok (g', next_queue') => visit_queue g' queue' next_queue'
          | Raise e => Raise e
          | OutOfFuel => OutOfFuel
          end
      end
  end.

(** [while len(current_queue) != 0], one unit of fuel per iteration. *)
Fixpoint topo_loop (fuel : nat) (g : gmap string Node)
    (current_queue : list string) (layers : list (list string))
    : result (list (list string)) :=
  match current_queue with
  | [] => Ok layers
  | _ :: _ =>
      match fuel with
      | O => OutOfFuel
      | S fuel' =>
          match visit_queue g current_queue [] with
          | Ok (g', next_queue) =>
              topo_loop fuel' g' next_queue (layers ++ [current_queue])
          | Raise e => Raise e
          | OutOfFuel => OutOfFuel
          end
      end
  end.

(** [get_topo_sort(start_node)], where [start_node] is the outcome of
    [graph.get(start_point)]: the first iteration reads [None.children] when
    the start alias is undeclared. *)
Definition get_topo_sort_fuel (fuel : nat) (g : gmap string Node)
    (start_node : option string) : result (list (list string)) :=
  match start_node with
  | None => Raise AttributeError
  | Some s => topo_loop fuel g [s] []
  end.

(** The loop runs at most once per node that is still waiting, plus once for
    the start node and once to see the empty queue. *)
Definition get_topo_sort (g : gmap string Node) (start_node : option string)
    : result (list (list string)) :=
  get_topo_sort_fuel (size g + 2) g start_node.

(** [graph.get(start_point)] as a node reference. *)
Definition graph_get (g : gmap string Node) (alias : string) : option string :=
  name <$> g !! alias.

(** ** Exclusion filter *)

(** Inner loop of [filter_excluded_nodes]: [nodes_copy.remove(node)] raises
    [KeyError] when the node is no longer in the set. *)
Fixpoint remove_excluded (nodes : list string) (exclude_aliases : list string)
    (nodes_copy : gset string) : result (gset string) :=
  match nodes with
  | [] => Ok nodes_copy
  | node :: rest =>
      if decide (node ∈ exclude_aliases) then
        if decide (node ∈ nodes_copy)
        then remove_excluded rest exclude_aliases (nodes_copy ∖ {[node]})
        else Raise KeyError
      else remove_excluded rest exclude_aliases nodes_copy
  end.

(** [filter_excluded_nodes]: the phases that come back are Python sets, and a
    phase left empty is not appended. *)
Fixpoint filter_excluded_nodes (build_phases : list (list string))
    (exclude_aliases : list string) : result (list (gset string)) :=
  match build_phases with
  | [] => Ok []
  | nodes :: rest =>
      match remove_excluded nodes exclude_aliases (list_to_set nodes) with
      | Ok nodes_copy =>
          match filter_excluded_nodes rest exclude_aliases with
          | Ok result =>
              Ok (if decide (nodes_copy = ∅) then result else nodes_copy :: result)
          | Raise e => Raise e
          | OutOfFuel => OutOfFuel
          end
      | Raise e => Raise e
      | OutOfFuel => OutOfFuel
      end
  end.

(** ** Status aggregation *)

(** [statuses.count(s)] *)
Definition count (s : string) (statuses : list string) : nat :=
  length (filter (λ x, x = s) statuses).

(** [resolve_statuses]; Python parses the second test as
    [(not ignore_failed and aborted > 0) or failed > 0]. *)
Definition resolve_statuses (statuses : list string) (ignore_failed : bool)
    : BuildStatus :=
  if bool_decide (statuses ≠ [])
     && bool_decide (count "SUCCESS" statuses = length statuses)
  then SUCCESS
  else if (negb ignore_failed && bool_decide (0 < count "ABORTED" statuses)%nat)
          || bool_decide (0 < count "FAILED" statuses)%nat
  then FAILED
  else IN_PROGRESS.

(** ** Build records and the Jenkins client *)

(** [class BuildItem]; [duration] is kept as an exact rational. *)
Record BuildItem : Type := mkBuildItem {
  job_name : string;
  build_num : Z;
  status : string;
  stage : string;
  duration : Qc
}.

(** The dictionary returned by [jenkins.get_build_stages]: [stages] may be
    [None], and each stage is represented by its ['name']. *)
Record StageInfo : Type := mkStageInfo {
  si_status : string;
  si_durationMillis : Z;
  si_stages : option (list string)
}.

(** What a request to the Jenkins client comes back with: a value, or an
    error raised by the client. *)
Inductive reply (A : Type) : Type :=
  | Answer (a : A)
  | Fault (e : exn).
Arguments Answer {A} a.
Arguments Fault {A} e.

Definition reply_result {A : Type} (r : reply A) : result A :=
  match r with
  | Answer a => Ok a
  | Fault e => Raise e
  end.

(** The three operations of the Jenkins client that the code calls, over an
    abstract server state.  A status lookup answers [None] while the build
    has no stage data yet (a falsy dictionary). *)
Record Jenkins (Server : Type) : Type := mkJenkins {
  get_job_info_nextBuildNumber : string → Server → Server * reply Z;
  jenkins_build_job : string → Server → Server;
  jenkins_get_build_stages : string → Z → Server → Server * reply (option StageInfo)
}.
Arguments get_job_info_nextBuildNumber {Server} _ _ _.
Arguments jenkins_build_job {Server} _ _ _.
Arguments jenkins_get_build_stages {Server} _ _ _ _.

(** Requests sent to the Jenkins server, in the order they are made. *)
Inductive call : Type :=
  | CallGetJobInfo (job : string)
  | CallBuildJob (job : string)
  | CallGetBuildStages (job : string) (num : Z).

(** Lines printed by [main]. *)
Inductive output : Type :=
  | PrintStartRequired
  | PrintNoJobBuilt
  | PrintTotals (jobs phases : nat)
  | PrintBuildPhase (number : nat)
  | PrintFinalStatus (s : BuildStatus).

(** The world a run acts on: the server, the log of requests sent to it and
    the lines printed so far. *)
Record World (Server : Type) : Type := mkWorld {
  server : Server;
  calls : list call;
  stdout : list output
}.
Arguments mkWorld {Server} _ _ _.
Arguments server {Server} _.
Arguments calls {Server} _.
Arguments stdout {Server} _.

Definition RETRIES_COUNT_GET_BUILD_STAGE : nat := 20.

(** [update_build_item_from_stage_info] *)
Definition update_build_item_from_stage_info (item : BuildItem)
    (stage_info : StageInfo) : BuildItem :=
  {| job_name := job_name item;
     build_num := build_num item;
     status := si_status stage_info;
     stage := match si_stages stage_info with
              | Some stages => match last stages with
                               | Some s => s
                               | None => stage item
                               end
              | None => stage item
              end;
     duration := (Qc_of_Z (si_durationMillis stage_info) / Qc_of_Z 1000)%Qc |}.

(** [item.status = s] *)
Definition set_status (s : string) (item : BuildItem) : BuildItem :=
  {| job_name := job_name item; build_num := build_num item; status := s;
     stage := stage item; duration := duration item |}.

(** The test [item.status not in ['FAILED', 'ABORTED', 'SUCCESS']]. *)
Definition is_terminal (s : string) : bool :=
  bool_decide (s ∈ ["FAILED"; "ABORTED"; "SUCCESS"]%string).

Section Orchestrator.
Context {Server : Type} (jenkins : Jenkins Server).

(** Stateful, fallible computations. *)
Definition M (A : Type) : Type := World Server → World Server * result A.

Definition print (o : output) (w : World Server) : World Server :=
  mkWorld (server w) (calls w) (stdout w ++ [o]).

(** [get_next_build_num] *)
Definition get_next_build_num (job : string) : M Z := λ w,
  let '(s, r) := get_job_info_nextBuildNumber jenkins job (server w) in
  (mkWorld s (calls w ++ [CallGetJobInfo job]) (stdout w), reply_result r).

(** [build_job] *)
Definition build_job (job : string) (w : World Server) : World Server :=
  mkWorld (jenkins_build_job jenkins job (server w))
          (calls w ++ [CallBuildJob job]) (stdout w).

(** [jenkins.get_build_stages(item.job_name, item.build_num)] *)
Definition get_build_stages (item : BuildItem) : M (option StageInfo) := λ w,
  let '(s, r) :=
    jenkins_get_build_stages jenkins (job_name item) (build_num item) (server w) in
  (mkWorld s (calls w ++ [CallGetBuildStages (job_name item) (build_num item)])
           (stdout w), reply_result r).

(** [init_build_items]: [aliases[node.name]] raises [KeyError] for a name
    that is not a key of the mapping. *)
Fixpoint init_build_items (nodes : list string) (aliases : gmap string string)
    : M (list BuildItem) := λ w,
  match nodes with
  | [] => (w, Ok [])
  | node :: rest =>
      match aliases !! node with
      | None => (w, Raise KeyError)
      | Some job =>
          match get_next_build_num job w with
          | (w1, Ok num) =>
              match init_build_items rest aliases w1 with
              | (w2, Ok items) =>
                  (w2, Ok (mkBuildItem job num "INITIATED" "?" 0%Qc :: items))
              | (w2, Raise e) => (w2, Raise e)
              | (w2, OutOfFuel) => (w2, OutOfFuel)
              end
          | (w1, Raise e) => (w1, Raise e)
          | (w1, OutOfFuel) => (w1, OutOfFuel)
          end
      end
  end.

(** [submit_build_and_wait]: one thread per item, all joined before the
    function returns; an exception inside a thread does not reach the
    caller.  The requests are taken in the order the threads are started. *)
Definition submit_build_and_wait (build_items : list BuildItem)
    (w : World Server) : World Server :=
  foldl (λ w item, build_job (job_name item) w) w build_items.

(** The [while] loop of [get_build_stage_info], with [tries] attempts left:
    it stops at the first truthy answer, and an error of the client leaves
    the loop at once. *)
Fixpoint fetch_stage_info (tries : nat) (item : BuildItem)
    : M (option StageInfo) := λ w,
  match tries with
  | O => (w, Ok None)
  | S tries' =>
      match get_build_stages item w with
      | (w1, Ok (Some stage_info)) => (w1, Ok (Some stage_info))
      | (w1, Ok None) => fetch_stage_info tries' item w1
      | (w1, Raise e) => (w1, Raise e)
      | (w1, OutOfFuel) => (w1, OutOfFuel)
      end
  end.

(** [get_build_stage_info] *)
Definition get_build_stage_info (item : BuildItem) : M StageInfo := λ w,
  match fetch_stage_info RETRIES_COUNT_GET_BUILD_STAGE item w with
  | (w1, Ok (Some stage_info)) => (w1, Ok stage_info)
  | (w1, Ok None) => (w1, Raise IOError)
  | (w1, Raise e) => (w1, Raise e)
  | (w1, OutOfFuel) => (w1, OutOfFuel)
  end.

(** Body of [for item in build_items] in the polling loop, up to the
    [statuses.append]: [except Exception] turns any raised error into the
    status ['FAILED']. *)
Definition poll_item (item : BuildItem) : M BuildItem := λ w,
  if is_terminal (status item) then (w, Ok item)
  else
    match get_build_stage_info item w with
    | (w1, Ok stage_info) =>
        (w1, Ok (update_build_item_from_stage_info item stage_info))
    | (w1, Raise _) => (w1, Ok (set_status "FAILED" item))
    | (w1, OutOfFuel) => (w1, OutOfFuel)
    end.

(** One polling tick over all build items; the items are mutated in place,
    so the updated list stands for them afterwards. *)
Fixpoint poll_tick (build_items : list BuildItem) : M (list BuildItem) := λ w,
  match build_items with
  | [] => (w, Ok [])
  | item :: rest =>
      match poll_item item w with
      | (w1, Ok item') =>
          match poll_tick rest w1 with
          | (w2, Ok rest') => (w2, Ok (item' :: rest'))
          | (w2, Raise e) => (w2, Raise e)
          | (w2, OutOfFuel) => (w2, OutOfFuel)
          end
      | (w1, Raise e) => (w1, Raise e)
      | (w1, OutOfFuel) => (w1, OutOfFuel)
      end
  end.

(** [while True] of [build_phase], one unit of fuel per tick; on [break] it
    yields the build items and the last [phase_status]. *)
Fixpoint poll_loop (fuel : nat) (build_items : list BuildItem)
    (ignore_failed : bool) : M (list BuildItem * BuildStatus) := λ w,
  match fuel with
  | O => (w, OutOfFuel)
  | S fuel' =>
      match poll_tick build_items w with
      | (w1, Ok items') =>
          let statuses := status <$> items' in
          let phase_status := resolve_statuses statuses ignore_failed in
          if bool_decide (phase_status ∈ [FAILED; SUCCESS])
          then (w1, Ok (items', phase_status))
          else poll_loop fuel' items' ignore_failed w1
      | (w1, Raise e) => (w1, Raise e)
      | (w1, OutOfFuel) => (w1, OutOfFuel)
      end
  end.

(** The last lines of [build_phase]. *)
Definition phase_result (ignore_failed : bool) (phase_status : BuildStatus)
    : BuildStatus :=
  if negb ignore_failed && bool_decide (phase_status = FAILED)
  then FAILED else IN_PROGRESS.

(** [build_phase] *)
Definition build_phase (fuel : nat) (nodes : list string)
    (aliases : gmap string string) (ignore_failed : bool) : M BuildStatus := λ w,
  match init_build_items nodes aliases w with
  | (w1, Ok build_items) =>
      let w2 := submit_build_and_wait build_items w1 in
      match poll_loop fuel build_items ignore_failed w2 with
      | (w3, Ok (_, phase_status)) => (w3, Ok (phase_result ignore_failed phase_status))
      | (w3, Raise e) => (w3, Raise e)
      | (w3, OutOfFuel) => (w3, OutOfFuel)
      end
  | (w1, Raise e) => (w1, Raise e)
  | (w1, OutOfFuel) => (w1, OutOfFuel)
  end.

(** ** Pipeline driver *)

(** [for phase in range(len(build_phases))] of [main], from index [phase]
    on; it yields [final_status]. *)
Fixpoint run_phases (fuel : nat) (phase : nat) (build_phases : list (list string))
    (aliases : gmap string string) (ignore_failed : bool) : M BuildStatus := λ w,
  match build_phases with
  | [] => (w, Ok SUCCESS)
  | nodes :: rest =>
      match build_phase fuel nodes aliases ignore_failed
              (print (PrintBuildPhase (phase + 1)) w) with
      | (w1, Ok phase_status) =>
          if bool_decide (phase_status = FAILED) then (w1, Ok FAILED)
          else run_phases fuel (S phase) rest aliases ignore_failed w1
      | (w1, Raise e) => (w1, Raise e)
      | (w1, OutOfFuel) => (w1, OutOfFuel)
      end
  end.

(** Lines 312 to 320 of [main]: the loop and the final report. *)
Definition drive (fuel : nat) (build_phases : list (list string))
    (aliases : gmap string string) (ignore_failed : bool) : M BuildStatus := λ w,
  match run_phases fuel 0 build_phases aliases ignore_failed w with
  | (w1, Ok final_status) => (print (PrintFinalStatus final_status) w1, Ok final_status)
  | (w1, Raise e) => (w1, Raise e)
  | (w1, OutOfFuel) => (w1, OutOfFuel)
  end.

(** The fields of [Config] that [main] reads after loading the file. *)
Record Config : Type := mkConfig {
  aliases : gmap string string;
  dependencies : list (string * string)
}.

(** How [main] ends: it returns, or [exit(0)] is called. *)
Inductive ending : Type := Returned | Exited.

(** [main], from the parsed command line and the loaded configuration.
    [start_point] is [None] when the option is not given, and the empty
    string is falsy as well.  [init_jenkins] only creates the client object;
    the first request to the server is sent by [build_phase].  After
    exclusion a phase is a set, which Python iterates in no fixed order;
    [elements] stands for one such order. *)
Definition main (fuel : nat) (config : Config) (start_point : option string)
    (exclude_aliases : list string) (ignore_failed : bool) : M ending := λ w,
  match start_point with
  | None | Some EmptyString => (print PrintStartRequired w, Ok Exited)
  | Some start =>
      match build_graph (aliases config) (dependencies config) with
      | Ok graph =>
          match get_topo_sort graph (graph_get graph start) with
          | Ok layers =>
              let filtered :=
                match exclude_aliases with
                | [] => Ok layers
                | _ :: _ =>
                    match filter_excluded_nodes layers exclude_aliases with
                    | Ok phases => Ok (elements <$> phases)
                    | Raise e => Raise e
                    | OutOfFuel => OutOfFuel
                    end
                end in
              match filtered with
              | Ok [] => (print PrintNoJobBuilt w, Ok Returned)
              | Ok build_phases =>
                  let total_jobs := sum_list (length <$> build_phases) in
                  let w1 := print (PrintTotals total_jobs (length build_phases)) w in
                  match drive fuel build_phases (aliases config) ignore_failed w1 with
                  | (w2, Ok _) => (w2, Ok Returned)
                  | (w2, Raise e) => (w2, Raise e)
                  | (w2, OutOfFuel) => (w2, OutOfFuel)
                  end
              | Raise e => (w, Raise e)
              | OutOfFuel => (w, OutOfFuel)
              end
          | Raise e => (w, Raise e)
          | OutOfFuel => (w, OutOfFuel)
          end
      | Raise e => (w, Raise e)
      | OutOfFuel => (w, OutOfFuel)
      end
  end.

End Orchestrator.

(** ** Configuration entries *)

(** [process_aliases]: [data] is the value under the key [aliases] of the
    loaded document, [None] when the key has no value; each element is a
    mapping, given by its items in order.  A later entry for an alias
    overwrites an earlier one. *)
Definition process_aliases (data : option (list (list (string * string))))
    : gmap string string :=
  match data with
  | None => ∅
  | Some pairs =>
      foldl (λ aliases pair,
               foldl (λ aliases '(alias, job_name), <[alias := job_name]> aliases)
                     aliases pair)
            ∅ pairs
  end.

(** [process_dependencies]: every item of every mapping is appended. *)
Definition process_dependencies (data : option (list (list (string * string))))
    : list (string * string) :=
  match data with
  | None => []
  | Some pairs =>
      foldl (λ dependencies pair,
               foldl (λ dependencies '(src_alias, dst_alias),
                        dependencies ++ [(src_alias, dst_alias)])
                     dependencies pair)
            [] pairs
  end.

(** ** A scripted Jenkins server for concrete runs *)

(** The server answers every status lookup for a job with the status the
    script gives for that job ([None]: no stage data), and numbers builds
    from 1. *)
Definition scripted (script : string → option string) : Jenkins unit :=
  {| get_job_info_nextBuildNumber := λ _ s, (s, Answer 1);
     jenkins_build_job := λ _ s, s;
     jenkins_get_build_stages := λ job _ s,
       (s, Answer ((λ st, mkStageInfo st 0 None) <$> script job)) |}.

Definition world0 : World unit := mkWorld () [] [].

(** * Vocabulary of the specification *)

(** ** The declared dependency graph *)

(** The dependents of [u], in the order of the edge list. *)
Definition dependents (deps : list (string * string)) (u : string) : list string :=
  (filter (λ e, e.2 = u) deps).*1.

(** The prerequisites of [v], with multiplicity. *)
Definition prerequisites (deps : list (string * string)) (v : string) : list string :=
  (filter (λ e, e.1 = v) deps).*2.

(** [well_formed aliases deps]: every edge joins declared aliases. *)
Definition well_formed (aliases : gmap string string)
    (deps : list (string * string)) : Prop :=
  ∀ e, e ∈ deps → e.1 ∈ dom aliases ∧ e.2 ∈ dom aliases.

(** What the edges of [deps] add to the node of alias [a]. *)
Definition link (deps : list (string * string)) (a : string) (n : Node) : Node :=
  {| name := name n;
     inbound := inbound n + Z.of_nat (length (prerequisites deps a));
     children := children n ++ dependents deps a |}.

(** [edge deps u v]: [v] depends on [u], so [u] must come first. *)
Definition edge (deps : list (string * string)) (u v : string) : Prop :=
  (v, u) ∈ deps.

(** [reachable deps s v]: [v] is [s] or depends on it, directly or not. *)
Definition reachable (deps : list (string * string)) (s v : string) : Prop :=
  rtc (edge deps) s v.

(** [on_cycle deps v]: some dependency chain leads from [v] back to [v]. *)
Definition on_cycle (deps : list (string * string)) (v : string) : Prop :=
  tc (edge deps) v v.

(** No cycle among the aliases reachable from [s]. *)
Definition acyclic_from (deps : list (string * string)) (s : string) : Prop :=
  ∀ v, reachable deps s v → ¬ on_cycle deps v.

(** Every prerequisite of a reachable alias other than [s] is reachable. *)
Definition prerequisites_reachable (deps : list (string * string)) (s : string) : Prop :=
  ∀ d p, (d, p) ∈ deps → d ≠ s → reachable deps s d → reachable deps s p.

(** [in_phase layers v i]: [v] is a member of phase number [i]. *)
Definition in_phase (layers : list (list string)) (v : string) (i : nat) : Prop :=
  ∃ L, layers !! i = Some L ∧ v ∈ L.

(** ** The store during layering *)

(** The counter and the children of the node named [v]. *)
Definition inb (g : gmap string Node) (v : string) : Z :=
  from_option inbound 0 (g !! v).

Definition ch (g : gmap string Node) (v : string) : list string :=
  from_option children [] (g !! v).

(** Every child reference points to an allocated node. *)
Definition closed (g : gmap string Node) : Prop :=
  ∀ u c, c ∈ ch g u → c ∈ dom g.

(** [crossed lo target hi] is 1 when a counter that starts at [target] reaches
    zero between its [lo]-th decrement (excluded) and its [hi]-th (included). *)
Definition crossed (lo : nat) (target : Z) (hi : nat) : nat :=
  if decide (Z.of_nat lo < target ≤ Z.of_nat hi) then 1%nat else 0%nat.

(** The nodes whose counter is still positive. *)
Definition waiting (g : gmap string Node) : gset string :=
  dom (filter (λ kn, 0 < inbound kn.2) g).

(** [layered inb0 ch0 E q R]: [R] is the list of layers that the loop emits
    from the queue [q] once the nodes of [E] have been processed, for initial
    counters [inb0] and children [ch0].  A node enters the next queue exactly
    when the decrements caused by [q] take its counter to zero. *)
Inductive layered (inb0 : string → Z) (ch0 : string → list string)
    : list string → list string → list (list string) → Prop :=
  | layered_nil E : layered inb0 ch0 E [] []
  | layered_cons E q q' R :
      q ≠ [] →
      (∀ v, count v q' =
            crossed (count v (E ≫= ch0)) (inb0 v) (count v ((E ++ q) ≫= ch0))) →
      layered inb0 ch0 (E ++ q) q' R →
      layered inb0 ch0 E q (q :: R).

(** Building the graph and layering it from [start], as [main] chains them. *)
Definition schedule (aliases : gmap string string)
    (deps : list (string * string)) (start : string)
    : result (list (list string)) :=
  match build_graph aliases deps with
  | Ok g => get_topo_sort g (graph_get g start)
  | Raise e => Raise e
  | OutOfFuel => OutOfFuel
  end.

(** [plan deps s R]: [R] is the layering from [s] of the graph declared by
    [deps], where a node starts with one count per prerequisite and has its
    dependents for children. *)
Definition plan (deps : list (string * string)) (s : string)
    (R : list (list string)) : Prop :=
  layered (λ v, Z.of_nat (length (prerequisites deps v))) (dependents deps) [] [s] R.

(** ** Exclusion *)

(** The members of a phase that are not excluded. *)
Definition kept (exclude_aliases : list string) (nodes : list string) : gset string :=
  list_to_set (filter (λ v, v ∉ exclude_aliases) nodes).

(** Among the first [i] phases, how many keep a member and how many are
    wholly excluded. *)
Definition surviving_before (exclude_aliases : list string)
    (phases : list (list string)) (i : nat) : nat :=
  length (filter (λ L, kept exclude_aliases L ≠ ∅) (take i phases)).

Definition dropped_before (exclude_aliases : list string)
    (phases : list (list string)) (i : nat) : nat :=
  length (filter (λ L, kept exclude_aliases L = ∅) (take i phases)).

(** [in_set_phase phases v i]: [v] is a member of the set at index [i]. *)
Definition in_set_phase (phases : list (gset string)) (v : string) (i : nat) : Prop :=
  ∃ X, phases !! i = Some X ∧ v ∈ X.

(** ** Runs of the orchestrator *)

Section Runs.
Context {Server : Type} (jenkins : Jenkins Server).

(** [absent_run n item w w']: from [w], [n] status lookups in a row for
    [item] come back without stage data, and leave the world [w']. *)
Inductive absent_run (item : BuildItem)
    : nat → World Server → World Server → Prop :=
  | absent_run_O w : absent_run item 0 w w
  | absent_run_S n w w1 w2 :
      get_build_stages jenkins item w = (w1, Ok None) →
      absent_run item n w1 w2 →
      absent_run item (S n) w w2.

(** [phases_run fuel aliases ignore_failed k phases w verdicts w']: from [w],
    the phases are executed one after the other, the first with number
    [k + 1]; each one returns, and [verdicts] lists what they return. *)
Inductive phases_run (fuel : nat) (aliases : gmap string string)
    (ignore_failed : bool)
    : nat → list (list string) → World Server → list BuildStatus → World Server → Prop :=
  | phases_run_nil k w : phases_run fuel aliases ignore_failed k [] w [] w
  | phases_run_cons k nodes rest w w1 w2 verdict verdicts :
      build_phase jenkins fuel nodes aliases ignore_failed
        (print (PrintBuildPhase (k + 1)) w) = (w1, Ok verdict) →
      phases_run fuel aliases ignore_failed (S k) rest w1 verdicts w2 →
      phases_run fuel aliases ignore_failed k (nodes :: rest) w (verdict :: verdicts) w2.

End Runs.

(** ** Concrete configurations *)

(** Scripted servers: every build is aborted; every build succeeds; job-b
    never has stage data; job-b fails. *)
Definition all_aborted : Jenkins unit := scripted (λ _, Some "ABORTED"%string).
Definition all_succeed : Jenkins unit := scripted (λ _, Some "SUCCESS"%string).
Definition job_b_silent : Jenkins unit :=
  scripted (λ job, if decide (job = "job-b"%string) then None else Some "SUCCESS"%string).
Definition job_b_fails : Jenkins unit :=
  scripted (λ job, if decide (job = "job-b"%string)
                   then Some "FAILED"%string else Some "SUCCESS"%string).

(** job-b fails while the other jobs are still running. *)
Definition job_b_fails_early : Jenkins unit :=
  scripted (λ job, if decide (job = "job-b"%string)
                   then Some "FAILED"%string else Some "IN_PROGRESS"%string).

(** A server that counts the status lookups and has no stage data for the
    first [k] of them. *)
Definition slow_start (k : nat) : Jenkins nat :=
  {| get_job_info_nextBuildNumber := λ _ n, (n, Answer 1);
     jenkins_build_job := λ _ n, n;
     jenkins_get_build_stages := λ _ _ n,
       (S n, Answer (if decide (n < k)%nat then None
                     else Some (mkStageInfo "SUCCESS" 1500
                                  (Some ["build"; "test"]%string)))) |}.

(** A build record as [init_build_items] creates it. *)
Definition fresh_item (job : string) : BuildItem :=
  mkBuildItem job 1 "INITIATED" "?" 0%Qc.

(** The example scenario of the specification: B and C depend on A. *)
Definition scenario_aliases : gmap string string :=
  list_to_map [("A", "job-a"); ("B", "job-b"); ("C", "job-c")]%string.
Definition scenario_deps : list (string * string) :=
  [("B", "A"); ("C", "A")]%string.

(** B depends on A and on C, and C is not reachable from A. *)
Definition outside_deps : list (string * string) :=
  [("B", "A"); ("B", "C")]%string.

(** B depends on A and on C, and C depends on B: a cycle that the start A is
    not on. *)
Definition cycle_away_deps : list (string * string) :=
  [("B", "A"); ("B", "C"); ("C", "B")]%string.

(** A and B depend on each other. *)
Definition mutual_aliases : gmap string string :=
  list_to_map [("A", "job-a"); ("B", "job-b")]%string.
Definition mutual_deps : list (string * string) :=
  [("A", "B"); ("B", "A")]%string.

(** A depends on itself. *)
Definition self_aliases : gmap string string :=
  list_to_map [("A", "job-a")]%string.
Definition self_deps : list (string * string) := [("A", "A")]%string.

(** * Properties *)

(** ** Concrete runs *)

Example spec_scenario :
  match build_graph (list_to_map [("A", "job-a"); ("B", "job-b"); ("C", "job-c")]%string)
          [("B", "A"); ("C", "A")]%string with
  | Ok g => get_topo_sort g (graph_get g "A")
  | Raise e => Raise e
  | OutOfFuel => OutOfFuel
  end = Ok [["A"]; ["B"; "C"]]%string.
Proof. vm_compute. reflexivity. Qed.

(** ** Counting occurrences *)

Lemma count_nil (v : string) : count v [] = 0%nat.
Proof. reflexivity. Qed.

Lemma count_cons (v x : string) (l : list string) :
  count v (x :: l) = ((if decide (x = v) then 1 else 0) + count v l)%nat.
Proof. unfold count. rewrite filter_cons. by case_decide. Qed.

Lemma count_app (v : string) (l1 l2 : list string) :
  count v (l1 ++ l2) = (count v l1 + count v l2)%nat.
Proof. unfold count. by rewrite filter_app, length_app. Qed.

Lemma count_pos (v : string) (l : list string) : (0 < count v l)%nat ↔ v ∈ l.
Proof.
  induction l as [|x l IH]; [rewrite count_nil, elem_of_nil; lia|].
  rewrite count_cons, elem_of_cons. case_decide; subst.
  - split; [by left | lia].
  - rewrite <- IH. split; [intros; right; lia | intros [?|?]; [congruence | lia]].
Qed.

Lemma count_zero (v : string) (l : list string) : count v l = 0%nat ↔ v ∉ l.
Proof. rewrite <- count_pos. lia. Qed.

Lemma NoDup_count (l : list string) : NoDup l ↔ ∀ v, (count v l ≤ 1)%nat.
Proof.
  induction l as [|x l IH].
  - split; [intros _ v; rewrite count_nil; lia | intros; constructor].
  - rewrite NoDup_cons, IH. split.
    + intros [Hx Hl] v. rewrite count_cons. case_decide; subst.
      * apply count_zero in Hx. lia.
      * specialize (Hl v). lia.
    + intros H. split.
      * apply count_zero. specialize (H x). rewrite count_cons in H.
        by case_decide; [lia|].
      * intros v. specialize (H v). rewrite count_cons in H. lia.
Qed.

Lemma count_join (v : string) (L : list string) (Ls : list (list string)) :
  L ∈ Ls → (count v L ≤ count v (mjoin Ls))%nat.
Proof.
  induction Ls as [|L' Ls IH]; [by rewrite elem_of_nil|].
  rewrite elem_of_cons. simpl. rewrite count_app. intros [->|H]; [lia|].
  specialize (IH H). lia.
Qed.

(** ** The graph that [build_graph] returns *)

Lemma add_dep_lookup g dep g' a :
  add_dep g dep = Ok g' → g' !! a = link [dep] a <$> g !! a.
Proof.
  unfold add_dep. destruct (g !! dep.2) as [nd|] eqn:Hd; [|done].
  destruct (g !! dep.1) as [ns|] eqn:Hs; [|done].
  intros [= <-]. rewrite !lookup_alter.
  unfold link, prerequisites, dependents.
  rewrite !filter_cons, !filter_nil.
  destruct dep as [d p]; simpl in *.
  destruct (decide (d = a)) as [->|], (decide (p = a)) as [->|];
    rewrite ?decide_True by done; try rewrite (decide_False (P := p = a)) by done;
    rewrite ?Hd, ?Hs; simpl.
  - done.
  - unfold add_inbound; simpl. by rewrite app_nil_r.
  - unfold append_child; simpl. by rewrite Z.add_0_r.
  - destruct (g !! a) as [[]|]; simpl; [|done]. by rewrite app_nil_r, Z.add_0_r.
Qed.

Lemma link_app deps1 deps2 a n :
  link (deps1 ++ deps2) a n = link deps2 a (link deps1 a n).
Proof.
  unfold link, prerequisites, dependents. simpl.
  rewrite !filter_app, !fmap_app, !length_app, app_assoc. f_equal. lia.
Qed.

Lemma add_deps_lookup deps : ∀ g g' a,
  add_deps g deps = Ok g' → g' !! a = link deps a <$> g !! a.
Proof.
  induction deps as [|dep deps IH]; intros g g' a; simpl.
  - intros [= <-]. destruct (g !! a) as [[]|]; simpl; [|done].
    unfold link; simpl. by rewrite app_nil_r, Z.add_0_r.
  - destruct (add_dep g dep) as [g1| |] eqn:H1; [|done..].
    intros H. rewrite (IH _ _ a H), (add_dep_lookup _ _ _ a H1).
    destruct (g !! a); simpl; [|done].
    by rewrite (link_app [dep] deps).
Qed.

Lemma add_dep_Ok g dep :
  is_Some (g !! dep.1) → is_Some (g !! dep.2) → ∃ g', add_dep g dep = Ok g'.
Proof. intros [? H1] [? H2]. unfold add_dep. rewrite H1, H2. eauto. Qed.

Lemma add_dep_Raise g dep :
  g !! dep.1 = None ∨ g !! dep.2 = None → add_dep g dep = Raise AttributeError.
Proof.
  unfold add_dep. intros [H|H]; rewrite H; [|done]. by destruct (g !! dep.2).
Qed.

Lemma add_deps_Ok deps : ∀ g,
  (∀ e, e ∈ deps → is_Some (g !! e.1) ∧ is_Some (g !! e.2)) →
  ∃ g', add_deps g deps = Ok g'.
Proof.
  induction deps as [|dep deps IH]; intros g H; simpl; [eauto|].
  destruct (add_dep_Ok g dep) as [g1 H1]; [apply H; left..|].
  rewrite H1. apply IH. intros e He.
  rewrite !(add_dep_lookup _ _ _ _ H1), !fmap_is_Some. apply H. by right.
Qed.

Lemma add_deps_Raise deps : ∀ g e,
  e ∈ deps → g !! e.1 = None ∨ g !! e.2 = None →
  add_deps g deps = Raise AttributeError.
Proof.
  induction deps as [|dep deps IH]; intros g e; [by rewrite elem_of_nil|].
  rewrite elem_of_cons. intros [->|He] Hm; simpl.
  - by rewrite add_dep_Raise.
  - destruct (add_dep g dep) as [g1| |] eqn:H1.
    + apply (IH g1 e He). rewrite !(add_dep_lookup _ _ _ _ H1).
      destruct Hm as [-> | ->]; auto.
    + unfold add_dep in H1.
      destruct (g !! dep.2); [|congruence]. by destruct (g !! dep.1).
    + unfold add_dep in H1.
      destruct (g !! dep.2); [|congruence]. by destruct (g !! dep.1).
Qed.

Lemma init_nodes_lookup aliases a :
  init_nodes aliases !! a = if decide (a ∈ dom aliases) then Some (new_node a) else None.
Proof.
  unfold init_nodes. rewrite map_lookup_imap.
  case_decide as H; apply elem_of_dom in H || apply not_elem_of_dom in H.
  - by destruct H as [x ->].
  - by rewrite H.
Qed.

(** A closed form of the graph: each declared alias owns a node that counts
    its prerequisites and lists its dependents. *)
Lemma build_graph_lookup aliases deps g a :
  build_graph aliases deps = Ok g →
  g !! a = if decide (a ∈ dom aliases)
           then Some (mkNode a (Z.of_nat (length (prerequisites deps a))) (dependents deps a))
           else None.
Proof.
  intros H. rewrite (add_deps_lookup _ _ _ a H), init_nodes_lookup.
  by case_decide.
Qed.

Lemma build_graph_Ok aliases deps :
  well_formed aliases deps → ∃ g, build_graph aliases deps = Ok g.
Proof.
  intros H. apply add_deps_Ok. intros e He.
  rewrite !init_nodes_lookup. destruct (H e He).
  by rewrite !decide_True by done.
Qed.

Lemma build_graph_Raise aliases deps e :
  e ∈ deps → e.1 ∉ dom aliases ∨ e.2 ∉ dom aliases →
  build_graph aliases deps = Raise AttributeError.
Proof.
  intros He H. apply (add_deps_Raise _ _ e He).
  rewrite !init_nodes_lookup.
  destruct H; [left | right]; by rewrite decide_False.
Qed.

Lemma build_graph_well_formed aliases deps g :
  build_graph aliases deps = Ok g → well_formed aliases deps.
Proof.
  intros H e He.
  destruct (decide (e.1 ∈ dom aliases)); [destruct (decide (e.2 ∈ dom aliases))|]; [done|..];
    rewrite (build_graph_Raise aliases deps e) in H by auto; done.
Qed.

Lemma build_graph_dom aliases deps g :
  build_graph aliases deps = Ok g → dom g = dom aliases.
Proof.
  intros H. apply set_eq. intros a.
  rewrite elem_of_dom, (build_graph_lookup _ _ _ a H).
  case_decide; [by split; eauto | split; [by intros [? ?]|done]].
Qed.

(** ** One pass over a queue *)

Lemma inb_insert g c n v :
  inb (<[c := n]> g) v = if decide (c = v) then inbound n else inb g v.
Proof. unfold inb. rewrite lookup_insert. by case_decide. Qed.

Lemma ch_insert_inbound g c n d v :
  g !! c = Some n → ch (<[c := add_inbound d n]> g) v = ch g v.
Proof.
  intros H. unfold ch. rewrite lookup_insert. case_decide; subst; [|done].
  by rewrite H.
Qed.

Lemma crossed_step (i : Z) (a b : nat) :
  (crossed 0 i a + crossed 0 (i - Z.of_nat a) b)%nat = crossed 0 i (a + b).
Proof. unfold crossed. repeat case_decide; lia. Qed.

Lemma crossed_shift (d : nat) (i : Z) (a : nat) :
  crossed 0 (i - Z.of_nat d) a = crossed d i (d + a).
Proof. unfold crossed. repeat case_decide; lia. Qed.

Lemma visit_children_spec cs : ∀ g nq,
  (∀ c, c ∈ cs → c ∈ dom g) →
  ∃ g' nq', visit_children g cs nq = Ok (g', nq') ∧
    dom g' = dom g ∧
    (∀ v, ch g' v = ch g v) ∧
    (∀ v, inb g' v = inb g v - Z.of_nat (count v cs)) ∧
    (∀ v, count v nq' = (count v nq + crossed 0 (inb g v) (count v cs))%nat).
Proof.
  induction cs as [|c cs IH]; intros g nq Hcs; simpl.
  - exists g, nq. split_and!; try done.
    + intros v. rewrite count_nil. lia.
    + intros v. rewrite count_nil. unfold crossed. case_decide; lia.
  - assert (c ∈ dom g) as [n Hn]%elem_of_dom by (apply Hcs; left).
    rewrite Hn.
    set (g1 := <[c := add_inbound (-1) n]> g).
    assert (dom g1 = dom g) as Hdom.
    { unfold g1. rewrite dom_insert_L. apply elem_of_dom_2 in Hn.
      apply set_eq. intros x. rewrite elem_of_union, elem_of_singleton.
      split; [by intros [->|?] | auto]. }
    edestruct (IH g1) as (g' & nq' & Hrun & Hd & Hch & Hinb & Hcnt).
    { intros c' Hc'. rewrite Hdom. apply Hcs. by right. }
    exists g', nq'. rewrite Hrun. split_and!; try done.
    + congruence.
    + intros v. rewrite Hch. unfold g1. by apply ch_insert_inbound.
    + intros v. rewrite Hinb. unfold g1. rewrite inb_insert, count_cons.
      assert (inb g c = inbound n) as Hc by (unfold inb; by rewrite Hn).
      destruct (decide (c = v)) as [<-|]; [rewrite Hc|]; simpl; lia.
    + intros v. rewrite Hcnt. unfold g1. rewrite inb_insert, !count_cons.
      assert (inb g c = inbound n) as Hc by (unfold inb; by rewrite Hn).
      simpl. destruct (decide (c = v)) as [->|Hne].
      * rewrite Hc. unfold crossed.
        repeat case_decide; rewrite ?count_app, ?count_cons, ?count_nil;
          rewrite ?decide_True by done; lia.
      * unfold crossed.
        repeat case_decide; rewrite ?count_app, ?count_cons, ?count_nil;
          rewrite ?decide_False by done; lia.
Qed.

Lemma visit_queue_spec q : ∀ g nq,
  closed g → (∀ u, u ∈ q → u ∈ dom g) →
  ∃ g' nq', visit_queue g q nq = Ok (g', nq') ∧
    dom g' = dom g ∧
    (∀ v, ch g' v = ch g v) ∧
    (∀ v, inb g' v = inb g v - Z.of_nat (count v (q ≫= ch g))) ∧
    (∀ v, count v nq' = (count v nq + crossed 0 (inb g v) (count v (q ≫= ch g)))%nat).
Proof.
  induction q as [|u q IH]; intros g nq Hcl Hq; cbn [visit_queue].
  - exists g, nq. simpl. split_and!; try done.
    + intros v. rewrite count_nil. lia.
    + intros v. rewrite count_nil. unfold crossed. case_decide; lia.
  - assert (u ∈ dom g) as [n Hn]%elem_of_dom by (apply Hq; left).
    rewrite Hn.
    assert (children n = ch g u) as -> by (unfold ch; by rewrite Hn).
    destruct (visit_children_spec (ch g u) g nq) as (g1 & nq1 & -> & Hd1 & Hch1 & Hinb1 & Hcnt1).
    { intros c. apply Hcl. }
    destruct (IH g1 nq1) as (g' & nq' & -> & Hd & Hch & Hinb & Hcnt).
    { intros a c. rewrite Hch1, Hd1. apply Hcl. }
    { intros a Ha. rewrite Hd1. apply Hq. by right. }
    assert (q ≫= ch g1 = q ≫= ch g) as Hbind.
    { clear -Hch1. induction q as [|a q IHq]; [done|].
      by rewrite !bind_cons, Hch1, IHq. }
    rewrite Hbind in Hinb, Hcnt.
    exists g', nq'. split_and!; try done.
    + congruence.
    + intros v. by rewrite Hch, Hch1.
    + intros v. rewrite Hinb, Hinb1, bind_cons, count_app. lia.
    + intros v. rewrite Hcnt, Hcnt1, Hinb1, bind_cons, count_app, <- crossed_step. lia.
Qed.

(** ** The layering loop *)

Lemma elem_of_waiting g v : v ∈ waiting g ↔ v ∈ dom g ∧ 0 < inb g v.
Proof.
  unfold waiting, inb. rewrite !elem_of_dom. split.
  - intros [n [Hn Hpos]%map_lookup_filter_Some]. rewrite Hn. simpl in *. eauto.
  - intros [[n Hn] Hpos]. rewrite Hn in Hpos. exists n.
    by apply map_lookup_filter_Some.
Qed.

Lemma waiting_size g : (size (waiting g) ≤ size g)%nat.
Proof.
  rewrite <- (size_dom (D := gset string) g). apply subseteq_size.
  intros v. rewrite elem_of_waiting. tauto.
Qed.

Lemma crossed_le lo i hi : (crossed lo i hi ≤ 1)%nat.
Proof. unfold crossed. case_decide; lia. Qed.

(** One iteration of the [while] loop: the pass succeeds, and each node it
    queues leaves the set of waiting nodes for good. *)
Lemma visit_queue_next g q :
  closed g → (∀ u, u ∈ q → u ∈ dom g) →
  ∃ g' q', visit_queue g q [] = Ok (g', q') ∧
    closed g' ∧ (∀ u, u ∈ q' → u ∈ dom g') ∧
    (∀ v, ch g' v = ch g v) ∧
    (∀ v, inb g' v = inb g v - Z.of_nat (count v (q ≫= ch g))) ∧
    (∀ v, count v q' = crossed 0 (inb g v) (count v (q ≫= ch g))) ∧
    (size (waiting g') + length q' ≤ size (waiting g))%nat.
Proof.
  intros Hcl Hq.
  destruct (visit_queue_spec q g [] Hcl Hq) as (g' & q' & Hrun & Hd & Hch & Hinb & Hcnt).
  setoid_rewrite count_nil in Hcnt. simpl in Hcnt.
  assert (∀ v, v ∈ q' → v ∈ dom g ∧ 0 < inb g v ≤ Z.of_nat (count v (q ≫= ch g))) as Hq'.
  { intros v Hv%count_pos. rewrite Hcnt in Hv. unfold crossed in Hv.
    case_decide as Hc; [|lia]. split; [|done].
    assert (v ∈ q ≫= ch g) as (u & Hvu & Hu)%list_elem_of_bind by (apply count_pos; lia).
    by apply (Hcl u). }
  exists g', q'. split_and!; try done.
  - intros u c. rewrite Hch, Hd. apply Hcl.
  - intros u Hu. rewrite Hd. by apply Hq'.
  - assert (NoDup q') as Hnd.
    { apply NoDup_count. intros v. rewrite Hcnt. apply crossed_le. }
    rewrite <- (size_list_to_set (C := gset string) q') by done.
    rewrite Nat.add_comm, <- size_union.
    + apply subseteq_size. intros v. rewrite elem_of_union, elem_of_list_to_set.
      intros [Hv|Hv]; apply elem_of_waiting.
      * destruct (Hq' v Hv). split; [done|lia].
      * apply elem_of_waiting in Hv as [Hv1 Hv2].
        rewrite Hd in Hv1. rewrite Hinb in Hv2. split; [done|lia].
    + intros v Hv1%elem_of_list_to_set [_ Hv2]%elem_of_waiting.
      destruct (Hq' v Hv1). rewrite Hinb in Hv2. lia.
Qed.

(** With enough fuel the loop returns. *)
Lemma topo_loop_terminates fuel : ∀ g q Ls,
  closed g → (∀ u, u ∈ q → u ∈ dom g) →
  q = [] ∨ (size (waiting g) + 2 ≤ fuel)%nat →
  ∃ R, topo_loop fuel g q Ls = Ok R.
Proof.
  induction fuel as [|fuel IH]; intros g q Ls Hcl Hq Hfuel.
  - destruct Hfuel as [->|?]; [by eexists | lia].
  - destruct q as [|u q]; [by eexists|].
    destruct Hfuel as [?|Hfuel]; [done|]. cbn [topo_loop].
    destruct (visit_queue_next g (u :: q) Hcl Hq)
      as (g' & q' & -> & Hcl' & Hq' & _ & _ & _ & Hsize).
    apply IH; [done..|].
    destruct q' as [|u' q']; [by left | right]. simpl in Hsize. lia.
Qed.

(** More fuel does not change the outcome. *)
Lemma topo_loop_fuel_mono fuel : ∀ fuel' g q Ls R,
  topo_loop fuel g q Ls = Ok R → (fuel ≤ fuel')%nat →
  topo_loop fuel' g q Ls = Ok R.
Proof.
  induction fuel as [|fuel IH]; intros fuel' g q Ls R.
  - destruct q; [by destruct fuel' | done].
  - destruct q as [|u q]; [by destruct fuel'|].
    destruct fuel' as [|fuel']; [lia|]. cbn [topo_loop].
    destruct (visit_queue g (u :: q) []) as [[g' q']| |]; [|done..].
    intros H ?. apply IH; [done | lia].
Qed.

(** What the loop returns is the layering of its queue. *)
Lemma topo_loop_layered inb0 ch0 fuel : ∀ g q Ls E R,
  closed g → (∀ u, u ∈ q → u ∈ dom g) →
  (∀ v, ch g v = ch0 v) →
  (∀ v, inb g v = inb0 v - Z.of_nat (count v (E ≫= ch0))) →
  topo_loop fuel g q Ls = Ok R →
  ∃ rest, R = Ls ++ rest ∧ layered inb0 ch0 E q rest.
Proof.
  induction fuel as [|fuel IH]; intros g q Ls E R Hcl Hq Hch Hinb.
  - destruct q; [|done]. intros [= <-]. exists []. rewrite app_nil_r.
    split; [done | constructor].
  - destruct q as [|u q].
    { intros [= <-]. exists []. rewrite app_nil_r. split; [done | constructor]. }
    cbn [topo_loop].
    destruct (visit_queue_next g (u :: q) Hcl Hq)
      as (g' & q' & -> & Hcl' & Hq' & Hch' & Hinb' & Hcnt & _).
    assert ((u :: q) ≫= ch g = (u :: q) ≫= ch0) as Hbind.
    { clear -Hch. induction (u :: q) as [|a l IHl]; [done|].
      by rewrite !bind_cons, Hch, IHl. }
    rewrite Hbind in Hinb', Hcnt.
    intros Hrun.
    destruct (IH g' q' (Ls ++ [u :: q]) (E ++ u :: q) R) as (rest & -> & Hlay); try done.
    + intros v. by rewrite Hch', Hch.
    + intros v. rewrite Hinb', Hinb, bind_app, count_app. lia.
    + exists ((u :: q) :: rest). split; [by rewrite <- app_assoc|].
      apply (layered_cons _ _ _ _ q'); [done| |done].
      intros v. rewrite Hcnt, Hinb, crossed_shift, bind_app, count_app. done.
Qed.

(** [get_topo_sort] returns on every closed store whose start node is
    allocated, and what it returns is the layering from that node. *)
Lemma get_topo_sort_layered g s :
  closed g → s ∈ dom g →
  ∃ R, get_topo_sort g (Some s) = Ok R ∧
       (∀ fuel, (size g + 2 ≤ fuel)%nat → get_topo_sort_fuel fuel g (Some s) = Ok R) ∧
       layered (inb g) (ch g) [] [s] R.
Proof.
  intros Hcl Hs. unfold get_topo_sort, get_topo_sort_fuel.
  assert (∀ u, u ∈ [s] → u ∈ dom g) as Hq by (by intros u ->%list_elem_of_singleton).
  destruct (topo_loop_terminates (size g + 2) g [s] [] Hcl Hq) as [R HR].
  { right. pose proof (waiting_size g). lia. }
  exists R. split; [done|]. split.
  - intros fuel Hfuel. by apply (topo_loop_fuel_mono (size g + 2)).
  - destruct (topo_loop_layered (inb g) (ch g) (size g + 2) g [s] [] [] R)
      as (rest & -> & Hlay); try done.
    intros v. simpl. rewrite count_nil. lia.
Qed.

(** ** Properties of a layering *)

Section Layering.
Variable inb0 : string → Z.
Variable ch0 : string → list string.

(** Number of decrements a node has received once [E] is processed. *)
Local Abbreviation dec E v := (count v (E ≫= ch0)).

Lemma layered_first E q R : layered inb0 ch0 E q R → q ≠ [] → R !! 0%nat = Some q.
Proof. by destruct 1. Qed.

Lemma layered_first_inv E q R L :
  layered inb0 ch0 E q R → R !! 0%nat = Some L → L = q.
Proof. destruct 1; simpl; congruence. Qed.

Lemma layered_queue_elem E q R v :
  layered inb0 ch0 E q R → v ∈ q → v ∈ mjoin R.
Proof.
  destruct 1; [by rewrite elem_of_nil|]. simpl. rewrite elem_of_app. auto.
Qed.

(** After the current queue, a node is emitted at most once, and only if
    its counter is still positive. *)
Lemma layered_count E q R v :
  layered inb0 ch0 E q R →
  (count v (mjoin R) ≤
     count v q + if decide (Z.of_nat (dec E v) < inb0 v)%Z then 1 else 0)%nat.
Proof.
  induction 1 as [E|E q q' R Hne Hq' Hlay IH]; [rewrite count_nil; lia|].
  simpl. rewrite count_app. rewrite Hq' in IH. unfold crossed in IH.
  rewrite bind_app, count_app in IH.
  repeat case_decide; lia.
Qed.

(** Every member of a later layer is a child of a member of the layer
    before it. *)
Lemma layered_parent E q R : layered inb0 ch0 E q R → ∀ i L v,
  R !! S i = Some L → v ∈ L →
  ∃ L' u, R !! i = Some L' ∧ u ∈ L' ∧ v ∈ ch0 u.
Proof.
  induction 1 as [E|E q q' R Hne Hq' Hlay IH]; intros i L v HL Hv; [done|].
  destruct i as [|i]; simpl in HL.
  - apply (layered_first_inv _ _ _ _ Hlay) in HL as ->.
    apply count_pos in Hv. rewrite Hq' in Hv. unfold crossed in Hv.
    rewrite bind_app, count_app in Hv. case_decide; [|lia].
    assert (v ∈ q ≫= ch0) as (u & ? & ?)%list_elem_of_bind by (apply count_pos; lia).
    by exists q, u.
  - destruct (IH i L v HL Hv) as (L' & u & ? & ? & ?). by exists L', u.
Qed.

(** A member of layer [k + 1] has received all its decrements from the
    layers up to [k]. *)
Lemma layered_released E q R : layered inb0 ch0 E q R → ∀ k L v,
  R !! S k = Some L → v ∈ L →
  inb0 v ≤ Z.of_nat (dec (E ++ mjoin (take (S k) R)) v).
Proof.
  induction 1 as [E|E q q' R Hne Hq' Hlay IH]; intros k L v HL Hv; [done|].
  destruct k as [|k]; simpl in HL.
  - apply (layered_first_inv _ _ _ _ Hlay) in HL as ->.
    apply count_pos in Hv. rewrite Hq' in Hv. unfold crossed in Hv.
    case_decide; [|lia].
  change (take 1 (q :: R)) with [q]. simpl mjoin. rewrite app_nil_r. lia.
  - specialize (IH k L v HL Hv).
    change (take (S (S k)) (q :: R)) with (q :: take (S k) R).
    simpl mjoin. by rewrite app_assoc.
Qed.

(** A node whose counter is exhausted by the emitted nodes is emitted. *)
Lemma layered_complete E q R v :
  layered inb0 ch0 E q R →
  Z.of_nat (dec E v) < inb0 v ≤ Z.of_nat (dec (E ++ mjoin R) v) →
  v ∈ mjoin R.
Proof.
  induction 1 as [E|E q q' R Hne Hq' Hlay IH]; intros Hv.
  - simpl in Hv. rewrite app_nil_r in Hv. lia.
  - simpl in *. rewrite elem_of_app. right.
    destruct (decide (inb0 v ≤ Z.of_nat (dec (E ++ q) v))) as [Hle|Hgt].
    + apply (layered_queue_elem _ _ _ _ Hlay), count_pos.
      rewrite Hq'. unfold crossed. rewrite decide_True; lia.
    + apply IH. rewrite <- app_assoc. lia.
Qed.
(** No layer holds a node twice. *)
Lemma layered_layers_NoDup E q R :
  layered inb0 ch0 E q R → NoDup q → Forall NoDup R.
Proof.
  induction 1 as [E|E q q' R Hne Hq' Hlay IH]; intros Hq; constructor; [done|].
  apply IH, NoDup_count. intros v. rewrite Hq'. apply crossed_le.
Qed.
End Layering.

(** ** Lists of layers *)

Lemma in_phase_elem layers v i : in_phase layers v i → v ∈ mjoin layers.
Proof.
  intros (L & HL & Hv). apply list_elem_of_join. exists L. split; [done|].
  by apply list_elem_of_lookup_2 in HL.
Qed.

Lemma elem_in_phase layers v : v ∈ mjoin layers → ∃ i, in_phase layers v i.
Proof.
  intros (L & Hv & (i & Hi)%list_elem_of_lookup_1)%list_elem_of_join.
  by exists i, L.
Qed.

Lemma in_phase_take layers k v :
  v ∈ mjoin (take k layers) → ∃ i, (i < k)%nat ∧ in_phase layers v i.
Proof.
  intros (L & Hv & (i & Hi)%list_elem_of_lookup_1)%list_elem_of_join.
  apply lookup_take_Some in Hi as [Hi Hlt]. exists i. split; [done|]. by exists L.
Qed.

Lemma NoDup_join_take (layers : list (list string)) k :
  NoDup (mjoin layers) → NoDup (mjoin (take k layers)).
Proof.
  rewrite <- (take_drop k layers) at 1. rewrite join_app.
  by intros [? _]%NoDup_app.
Qed.

(** In a list of layers without repetition a node has one phase index. *)
Lemma in_phase_unique layers v : NoDup (mjoin layers) → ∀ i j,
  in_phase layers v i → in_phase layers v j → i = j.
Proof.
  induction layers as [|L layers IH]; intros Hnd i j Hi Hj.
  { by destruct Hi as (? & ? & _). }
  simpl in Hnd. apply NoDup_app in Hnd as (_ & Hdisj & Hnd).
  destruct i as [|i], j as [|j]; [done|..].
  - destruct Hi as (L1 & [= <-] & Hv). exfalso. apply (Hdisj v Hv).
    apply (in_phase_elem layers v j Hj).
  - destruct Hj as (L1 & [= <-] & Hv). exfalso. apply (Hdisj v Hv).
    apply (in_phase_elem layers v i Hi).
  - f_equal. by apply IH.
Qed.

(** ** Decrements in terms of the edge list *)

Lemma elem_of_dependents deps u c : c ∈ dependents deps u ↔ edge deps u c.
Proof.
  unfold dependents, edge. rewrite list_elem_of_fmap. split.
  - intros ([d p] & -> & [Hp He]%list_elem_of_filter). simpl in *. by subst.
  - intros He. exists (c, u). split; [done|]. by apply list_elem_of_filter.
Qed.

Lemma elem_of_prerequisites deps v p : p ∈ prerequisites deps v ↔ edge deps p v.
Proof.
  unfold prerequisites, edge. rewrite list_elem_of_fmap. split.
  - intros ([d p'] & -> & [Hp He]%list_elem_of_filter). simpl in *. by subst.
  - intros He. exists (v, p). split; [done|]. by apply list_elem_of_filter.
Qed.

Lemma count_dependents_prerequisites deps u v :
  count v (dependents deps u) = count u (prerequisites deps v).
Proof.
  unfold dependents, prerequisites.
  induction deps as [|[d p] deps IH]; [done|].
  rewrite !filter_cons. simpl.
  destruct (decide (p = u)) as [->|], (decide (d = v)) as [->|];
    rewrite ?fmap_cons, ?count_cons; simpl;
    rewrite ?decide_True by done; rewrite ?decide_False by done; lia.
Qed.

Lemma sum_list_count_cons (u : string) (E l : list string) :
  sum_list ((λ p, count p (u :: E)) <$> l) =
  (count u l + sum_list ((λ p, count p E) <$> l))%nat.
Proof.
  induction l as [|p l IH]; [done|].
  rewrite !fmap_cons. simpl. rewrite IH, !count_cons.
  destruct (decide (u = p)) as [->|]; [rewrite !decide_True by done; lia|].
  rewrite !decide_False by done; lia.
Qed.

(** The decrements that the nodes of [E] cause on [v]: one per edge from [v]
    to a member of [E]. *)
Lemma count_bind_dependents deps (E : list string) v :
  count v (E ≫= dependents deps) = sum_list ((λ p, count p E) <$> prerequisites deps v).
Proof.
  induction E as [|u E IH].
  - simpl. induction (prerequisites deps v) as [|p l IHl]; [done|].
    rewrite fmap_cons. simpl. by rewrite <- IHl.
  - rewrite bind_cons, count_app, IH, sum_list_count_cons.
    by rewrite count_dependents_prerequisites.
Qed.

Lemma sum_list_all_one {A} (f : A → nat) (l : list A) :
  (∀ x, x ∈ l → (f x ≤ 1)%nat) → (length l ≤ sum_list (f <$> l))%nat →
  ∀ x, x ∈ l → f x = 1%nat.
Proof.
  induction l as [|a l IH]; intros Hle Hsum x Hx; [by apply elem_of_nil in Hx|].
  rewrite fmap_cons in Hsum. simpl in Hsum.
  assert (sum_list (f <$> l) ≤ length l)%nat as Hub.
  { clear -Hle. induction l as [|b l IHl]; [done|].
    rewrite fmap_cons. simpl. 
    assert (f b ≤ 1)%nat by (apply Hle; right; left).
    assert (sum_list (f <$> l) ≤ length l)%nat; [|lia].
    apply IHl. intros y [->|Hy]%elem_of_cons; apply Hle; [left | right; by right]. }
  assert (f a ≤ 1)%nat by (apply Hle; left).
  apply elem_of_cons in Hx as [->|Hx]; [lia|].
  apply IH; [|lia|done]. intros y Hy. apply Hle. by right.
Qed.

Lemma sum_list_lower {A} (f : A → nat) (l : list A) :
  (∀ x, x ∈ l → (1 ≤ f x)%nat) → (length l ≤ sum_list (f <$> l))%nat.
Proof.
  induction l as [|a l IH]; intros Hle; [done|].
  rewrite fmap_cons. simpl.
  assert (1 ≤ f a)%nat by (apply Hle; left).
  assert (length l ≤ sum_list (f <$> l))%nat; [|lia].
  apply IH. intros y Hy. apply Hle. by right.
Qed.

(** Without repetition in [E], a node that received as many decrements as it
    has prerequisites has all its prerequisites in [E]. *)
Lemma released_prerequisites deps (E : list string) v p :
  NoDup E →
  (length (prerequisites deps v) ≤ count v (E ≫= dependents deps))%nat →
  edge deps p v → p ∈ E.
Proof.
  intros Hnd Hle Hp. rewrite count_bind_dependents in Hle.
  apply count_pos.
  rewrite (sum_list_all_one (λ p, count p E) (prerequisites deps v)); [lia| |done|].
  - intros x _. by apply NoDup_count.
  - by apply elem_of_prerequisites.
Qed.

(** Conversely, a node whose prerequisites are all in [E] has received at
    least as many decrements as it has prerequisites. *)
Lemma prerequisites_released deps (E : list string) v :
  (∀ p, edge deps p v → p ∈ E) →
  (length (prerequisites deps v) ≤ count v (E ≫= dependents deps))%nat.
Proof.
  intros H. rewrite count_bind_dependents. apply sum_list_lower.
  intros p Hp%elem_of_prerequisites. by apply count_pos, H.
Qed.

(** ** The store built by [build_graph] *)

Section Built.
Context (aliases : gmap string string) (deps : list (string * string)).
Context (g : gmap string Node) (Hbuild : build_graph aliases deps = Ok g).

Lemma built_ch u : ch g u = dependents deps u.
Proof.
  unfold ch. rewrite (build_graph_lookup _ _ _ u Hbuild).
  case_decide as Hu; [done|]. simpl.
  destruct (dependents deps u) as [|c l] eqn:Hd; [done|]. exfalso.
  assert (c ∈ dependents deps u) as He%elem_of_dependents by (rewrite Hd; left).
  by destruct (build_graph_well_formed _ _ _ Hbuild _ He).
Qed.

Lemma built_inb v : inb g v = Z.of_nat (length (prerequisites deps v)).
Proof.
  unfold inb. rewrite (build_graph_lookup _ _ _ v Hbuild).
  case_decide as Hv; [done|]. simpl.
  destruct (prerequisites deps v) as [|p l] eqn:Hd; [done|]. exfalso.
  assert (p ∈ prerequisites deps v) as He%elem_of_prerequisites by (rewrite Hd; left).
  by destruct (build_graph_well_formed _ _ _ Hbuild _ He).
Qed.

Lemma built_closed : closed g.
Proof.
  intros u c. rewrite built_ch, elem_of_dependents. intros He.
  rewrite (build_graph_dom _ _ _ Hbuild).
  by destruct (build_graph_well_formed _ _ _ Hbuild _ He).
Qed.

Lemma built_graph_get s :
  graph_get g s = if decide (s ∈ dom aliases) then Some s else None.
Proof.
  unfold graph_get. rewrite (build_graph_lookup _ _ _ s Hbuild). by case_decide.
Qed.

Lemma built_layered_ext R E q :
  layered (inb g) (ch g) E q R →
  layered (λ v, Z.of_nat (length (prerequisites deps v))) (dependents deps) E q R.
Proof.
  induction 1 as [E|E q q' R Hne Hq' Hlay IH]; [constructor|].
  apply (layered_cons _ _ _ _ q'); [done| |done].
  assert (∀ l : list string, l ≫= ch g = l ≫= dependents deps) as Hbind.
  { intros l. induction l as [|u l IHl]; [done|].
    by rewrite !bind_cons, built_ch, IHl. }
  intros v. by rewrite Hq', built_inb, !Hbind.
Qed.

(** The scheduler returns on the built graph, for every declared start. *)
Lemma built_topo_sort s :
  s ∈ dom aliases →
  ∃ R, get_topo_sort g (graph_get g s) = Ok R ∧
       (∀ fuel, (size g + 2 ≤ fuel)%nat →
                get_topo_sort_fuel fuel g (graph_get g s) = Ok R) ∧
       plan deps s R.
Proof.
  intros Hs. rewrite built_graph_get, decide_True by done.
  destruct (get_topo_sort_layered g s built_closed) as (R & HR & Hfuel & Hlay).
  { by rewrite (build_graph_dom _ _ _ Hbuild). }
  exists R. split_and!; [done..|]. by apply built_layered_ext.
Qed.

End Built.

(** ** Properties of a plan *)

Lemma tc_last {A} (R : relation A) x y : tc R x y → ∃ z, rtc R x z ∧ R z y.
Proof.
  induction 1 as [x y H|x y' y H _ (z & Hz & Hzy)].
  - exists x. split; [constructor | done].
  - exists z. split; [by eapply rtc_l | done].
Qed.

Lemma count_join_first (layers : list (list string)) L v :
  layers !! 0%nat = Some L →
  (∀ i, (0 < i)%nat → ¬ in_phase layers v i) →
  count v (mjoin layers) = count v L.
Proof.
  destruct layers as [|L' rest]; [done|]. intros [= ->] Hlater.
  simpl. rewrite count_app.
  assert (count v (mjoin rest) = 0%nat) as ->; [|lia].
  apply count_zero. intros [i (L1 & HL1 & Hi)]%elem_in_phase.
  apply (Hlater (S i)); [lia|]. by exists L1.
Qed.

Section Plan.
Context (deps : list (string * string)) (s : string) (R : list (list string)).
Context (Hplan : plan deps s R).

Lemma plan_first : R !! 0%nat = Some [s].
Proof. by apply (layered_first _ _ _ _ _ Hplan). Qed.

Lemma plan_layers_NoDup : Forall NoDup R.
Proof.
  apply (layered_layers_NoDup _ _ _ _ _ Hplan), NoDup_singleton.
Qed.

Lemma plan_start : in_phase R s 0.
Proof. exists [s]. split; [apply plan_first | by left]. Qed.

(** Every scheduled node is reachable from the start, by at least one edge
    when it sits in a later phase. *)
Lemma plan_reachable i : ∀ v,
  in_phase R v i →
  reachable deps s v ∧ ((0 < i)%nat → tc (edge deps) s v).
Proof.
  induction i as [|i IH]; intros v (L & HL & Hv).
  - rewrite plan_first in HL. injection HL as <-.
    apply list_elem_of_singleton in Hv as ->. split; [constructor | lia].
  - destruct (layered_parent _ _ _ _ _ Hplan i L v HL Hv) as (L' & u & HL' & Hu & Huv).
    apply elem_of_dependents in Huv.
    destruct (IH u) as [Hsu _]; [by exists L'|]. split.
    + by eapply rtc_r.
    + intros _. eapply tc_rtc_l; [done | by constructor].
Qed.

Lemma plan_count v : (count v (mjoin R) ≤ count v [s] + 1)%nat.
Proof.
  pose proof (layered_count _ _ _ _ _ v Hplan) as H. simpl in H.
  case_decide; lia.
Qed.

(** When the start is not on a cycle the plan has no repetition. *)
Lemma plan_NoDup : ¬ on_cycle deps s → NoDup (mjoin R).
Proof.
  intros Hs. apply NoDup_count. intros v.
  pose proof (plan_count v) as Hc. rewrite count_cons, count_nil in Hc.
  destruct (decide (s = v)) as [<-|]; [|lia].
  rewrite (count_join_first R [s] s plan_first).
  - rewrite count_cons, count_nil, decide_True by done. lia.
  - intros i Hi Hin. apply Hs. by apply (plan_reachable i s).
Qed.

(** In a plan without repetition the prerequisites of a node of phase
    [k + 1] sit in the phases up to [k]. *)
Lemma plan_prerequisite k v p :
  NoDup (mjoin R) → in_phase R v (S k) → edge deps p v →
  ∃ i, (i ≤ k)%nat ∧ in_phase R p i.
Proof.
  intros Hnd (L & HL & Hv) Hp.
  pose proof (layered_released _ _ _ _ _ Hplan k L v HL Hv) as Hrel.
  rewrite app_nil_l in Hrel.
  destruct (in_phase_take R (S k) p) as (i & Hi & Hin).
  - apply (released_prerequisites deps _ v); [by apply NoDup_join_take | lia | done].
  - exists i. split; [lia | done].
Qed.

(** When the start is not on a cycle no scheduled node is. *)
Lemma plan_no_cycle i : ∀ v,
  ¬ on_cycle deps s → in_phase R v i → ¬ on_cycle deps v.
Proof.
  induction i as [i IH] using lt_wf_ind. intros v Hs Hv Hcyc.
  destruct i as [|k].
  - destruct Hv as (L & HL & Hv). rewrite plan_first in HL. injection HL as <-.
    apply list_elem_of_singleton in Hv as ->. done.
  - destruct (tc_last _ _ _ Hcyc) as (u & Hvu & Huv).
    destruct (plan_prerequisite k v u) as (i & Hi & Hin); [by apply plan_NoDup|done..|].
    apply (IH i) with u; [lia|done..|].
    eapply tc_rtc_r; [by constructor | done].
Qed.

(** A reachable node that is missing from the plan has a reachable
    prerequisite that is missing too. *)
Lemma plan_missing v :
  NoDup (mjoin R) → prerequisites_reachable deps s →
  reachable deps s v → v ∉ mjoin R →
  ∃ p, edge deps p v ∧ reachable deps s p ∧ p ∉ mjoin R.
Proof.
  intros Hnd Hpre Hv Hmiss.
  assert (v ≠ s) as Hne.
  { intros ->. apply Hmiss. apply (in_phase_elem R s 0), plan_start. }
  destruct (decide (Forall (λ p, p ∈ mjoin R) (prerequisites deps v))) as [Hall|Hex].
  - exfalso. apply Hmiss. apply (layered_complete _ _ _ _ _ v Hplan).
    rewrite app_nil_l. simpl. rewrite count_nil.
    apply rtc_inv_r in Hv as [?|(u & _ & Hu)]; [done|].
    apply elem_of_prerequisites in Hu as Hu'.
    pose proof (prerequisites_released deps (mjoin R) v) as Hrel.
    destruct (prerequisites deps v) as [|p0 l] eqn:Hpv; [by apply elem_of_nil in Hu'|].
    rewrite <- Hpv in *. split.
    + rewrite Hpv. simpl. lia.
    + apply inj_le, Hrel. intros p Hp%elem_of_prerequisites.
      rewrite Forall_forall in Hall. by apply Hall.
  - apply not_Forall_Exists in Hex; [|apply _].
    apply Exists_exists in Hex as (p & Hp%elem_of_prerequisites & Hmp).
    exists p. split_and!; [done| |done]. by apply (Hpre v p).
Qed.

(** Hence a missing node has arbitrarily many distinct reachable ancestors. *)
Lemma plan_missing_ancestors n : ∀ v,
  acyclic_from deps s → prerequisites_reachable deps s →
  reachable deps s v → v ∉ mjoin R →
  ∃ (X : list string), length X = n ∧ NoDup X ∧
    (∀ u, u ∈ X → reachable deps s u ∧ (u ∉ mjoin R) ∧ tc (edge deps) u v).
Proof.
  induction n as [|n IH]; intros v Hacyc Hpre Hv Hmiss.
  - exists []. split_and!; [done | constructor | by intros u ?%elem_of_nil].
  - assert (NoDup (mjoin R)) as Hnd.
    { apply plan_NoDup, Hacyc. constructor. }
    destruct (plan_missing v Hnd Hpre Hv Hmiss) as (p & Hpv & Hp & Hpm).
    destruct (IH p Hacyc Hpre Hp Hpm) as (X & Hlen & HX & Hanc).
    exists (p :: X). split_and!.
    + simpl. by rewrite Hlen.
    + constructor; [|done]. intros (_ & _ & Hcyc)%Hanc. by apply (Hacyc p).
    + intros u [->|Hu]%elem_of_cons.
      * split_and!; [done..|by constructor].
      * destruct (Hanc u Hu) as (? & ? & ?). split_and!; [done..|].
        by eapply tc_r.
Qed.

(** Every reachable alias is scheduled when the reachable part has no cycle
    and no prerequisite from outside. *)
Lemma plan_complete (aliases : gset string) v :
  (∀ u, reachable deps s u → u ∈ aliases) →
  acyclic_from deps s → prerequisites_reachable deps s →
  reachable deps s v → v ∈ mjoin R.
Proof.
  intros Hdom Hacyc Hpre Hv.
  destruct (decide (v ∈ mjoin R)) as [|Hmiss]; [done|]. exfalso.
  destruct (plan_missing_ancestors (S (size aliases)) v Hacyc Hpre Hv Hmiss)
    as (X & Hlen & HX & Hanc).
  assert (length X ≤ size aliases)%nat; [|lia].
  apply submseteq_length, NoDup_submseteq; [done|].
  intros u Hu. apply elem_of_elements, Hdom. by apply Hanc.
Qed.

End Plan.

(** ** Building and layering together *)

Lemma built_plan aliases deps s :
  well_formed aliases deps → s ∈ dom aliases →
  ∃ g R, build_graph aliases deps = Ok g ∧
         get_topo_sort g (graph_get g s) = Ok R ∧
         (∀ fuel, (size g + 2 ≤ fuel)%nat →
                  get_topo_sort_fuel fuel g (graph_get g s) = Ok R) ∧
         plan deps s R.
Proof.
  intros Hwf Hs. destruct (build_graph_Ok aliases deps Hwf) as [g Hg].
  destruct (built_topo_sort aliases deps g Hg s Hs) as (R & HR & Hfuel & Hplan).
  by exists g, R.
Qed.

Lemma reachable_declared aliases deps s u :
  well_formed aliases deps → s ∈ dom aliases →
  reachable deps s u → u ∈ dom aliases.
Proof.
  intros Hwf Hs [->|(y & _ & Hy)]%rtc_inv_r; [done|].
  by destruct (Hwf _ Hy).
Qed.

Lemma schedule_Ok aliases deps s R :
  schedule aliases deps s = Ok R →
  ∃ g, build_graph aliases deps = Ok g ∧ get_topo_sort g (graph_get g s) = Ok R.
Proof.
  unfold schedule. destruct (build_graph aliases deps) as [g| |]; [|done..].
  intros H. by exists g.
Qed.

(** A tactic for edges of an explicit edge list. *)
Ltac edge_cases H :=
  unfold edge in H;
  repeat (apply elem_of_cons in H as [H|H]; [simplify_eq|]);
  try (by apply elem_of_nil in H).

(** C1 (amended): for declared aliases, an edge list over them with no cycle
    reachable from the declared start, building the graph and layering it
    succeeds; no alias is in two phases or twice in a phase; whenever the
    dependent of an edge between reachable aliases is in a phase, its
    prerequisite is in a strictly earlier one; and when every prerequisite of
    a reachable alias other than the start is itself reachable, every
    reachable alias is in exactly one phase. *)
Theorem topo_sort_acyclic_phases aliases deps s :
  well_formed aliases deps → s ∈ dom aliases → acyclic_from deps s →
  ∃ g layers,
    build_graph aliases deps = Ok g ∧
    get_topo_sort g (graph_get g s) = Ok layers ∧
    NoDup (mjoin layers) ∧
    (∀ v i j, in_phase layers v i → in_phase layers v j → i = j) ∧
    (∀ d p, (d, p) ∈ deps → reachable deps s d → reachable deps s p →
       (∀ j, in_phase layers d j → ∃ i, in_phase layers p i ∧ (i < j)%nat) ∧
       (∀ i j, in_phase layers p i → in_phase layers d j → (i < j)%nat)) ∧
    (prerequisites_reachable deps s →
       ∀ v, reachable deps s v →
         ∃ i, in_phase layers v i ∧ ∀ j, in_phase layers v j → j = i).
Proof.
  intros Hwf Hs Hacyc.
  destruct (built_plan aliases deps s Hwf Hs) as (g & R & Hg & HR & _ & Hplan).
  exists g, R.
  assert (NoDup (mjoin R)) as Hnd.
  { apply (plan_NoDup deps s R Hplan), Hacyc. constructor. }
  assert (∀ d p j, (d, p) ∈ deps → reachable deps s p → in_phase R d j →
            ∃ i, in_phase R p i ∧ (i < j)%nat) as Hord.
  { intros d p j He Hp Hd. destruct j as [|k].
    - destruct Hd as (L & HL & Hd). rewrite (plan_first deps s R Hplan) in HL.
      injection HL as <-. apply list_elem_of_singleton in Hd as ->.
      destruct (Hacyc s); [constructor|]. eapply tc_rtc_l; [done | by constructor].
    - destruct (plan_prerequisite deps s R Hplan k d p Hnd Hd He) as (i & Hi & Hin).
      exists i. split; [done | lia]. }
  split_and!; [done..| | |].
  - intros v i j. by apply in_phase_unique.
  - intros d p He Hd Hp. split; [by eauto|].
    intros i j Hi Hj. destruct (Hord d p j He Hp Hj) as (i' & Hi' & Hlt).
    by rewrite (in_phase_unique R p Hnd i i' Hi Hi').
  - intros Hpre v Hv.
    destruct (elem_in_phase R v) as [i Hi].
    { apply (plan_complete deps s R Hplan (dom aliases)); [|done..].
      intros u. by apply reachable_declared. }
    exists i. split; [done|]. intros j Hj. by apply (in_phase_unique R v Hnd).
Qed.

(** C3 (amended): on every graph built from declared aliases, layering from a
    declared start returns a phase list, with the fuel the model gives it and
    with any larger amount; and when the start is not itself on a cycle, no
    alias that is on a cycle is in any phase. *)
Theorem topo_sort_terminates_cycles_out aliases deps s :
  well_formed aliases deps → s ∈ dom aliases →
  ∃ g layers,
    build_graph aliases deps = Ok g ∧
    get_topo_sort g (graph_get g s) = Ok layers ∧
    (∀ fuel, (size g + 2 ≤ fuel)%nat →
             get_topo_sort_fuel fuel g (graph_get g s) = Ok layers) ∧
    (¬ on_cycle deps s → ∀ v i, on_cycle deps v → ¬ in_phase layers v i).
Proof.
  intros Hwf Hs.
  destruct (built_plan aliases deps s Hwf Hs) as (g & R & Hg & HR & Hfuel & Hplan).
  exists g, R. split_and!; [done..|].
  intros Hstart v i Hcyc Hin. by apply (plan_no_cycle deps s R Hplan i v).
Qed.

(** C4 (amended): in the phase list of a graph built from declared aliases,
    phase 0 is the start alone, no phase holds a node twice, every other
    alias occurs at most once over all phases, the start occurs at most
    twice, and nothing occurs twice when the start is not on a cycle. *)
Theorem topo_sort_occurrences aliases deps s :
  well_formed aliases deps → s ∈ dom aliases →
  ∃ g layers,
    build_graph aliases deps = Ok g ∧
    get_topo_sort g (graph_get g s) = Ok layers ∧
    layers !! 0%nat = Some [s] ∧
    Forall NoDup layers ∧
    (∀ v, v ≠ s → (count v (mjoin layers) ≤ 1)%nat) ∧
    (count s (mjoin layers) ≤ 2)%nat ∧
    (¬ on_cycle deps s → NoDup (mjoin layers)).
Proof.
  intros Hwf Hs.
  destruct (built_plan aliases deps s Hwf Hs) as (g & R & Hg & HR & _ & Hplan).
  exists g, R. split_and!; [done..| | | | |].
  - by apply (plan_first deps s).
  - by apply (plan_layers_NoDup deps s).
  - intros v Hv. pose proof (plan_count deps s R Hplan v) as H.
    rewrite count_cons, count_nil, decide_False in H by done. lia.
  - pose proof (plan_count deps s R Hplan s) as H.
    rewrite count_cons, count_nil, decide_True in H by done. lia.
  - by apply plan_NoDup.
Qed.

(** ** The amended claims at concrete configurations *)

(** Closes a decidable goal by evaluation. *)
Ltac by_compute :=
  simpl;
  match goal with
  | |- ?P => apply (bool_decide_unpack P); vm_compute; exact I
  end.

Lemma scenario_well_formed : well_formed scenario_aliases scenario_deps.
Proof. intros e He. edge_cases He; split; by_compute. Qed.

Lemma outside_well_formed : well_formed scenario_aliases outside_deps.
Proof. intros e He. edge_cases He; split; by_compute. Qed.

Lemma mutual_well_formed : well_formed mutual_aliases mutual_deps.
Proof. intros e He. edge_cases He; split; by_compute. Qed.

Lemma self_well_formed : well_formed self_aliases self_deps.
Proof. intros e He. edge_cases He; split; by_compute. Qed.

Lemma scenario_no_cycle v : ¬ on_cycle scenario_deps v.
Proof.
  intros Hcyc. destruct (tc_last _ _ _ Hcyc) as (z & _ & Hz).
  edge_cases Hz; inversion Hcyc as [? ? He|? y ? He _]; edge_cases He.
Qed.

Lemma outside_no_cycle v : ¬ on_cycle outside_deps v.
Proof.
  intros Hcyc. destruct (tc_last _ _ _ Hcyc) as (z & _ & Hz).
  edge_cases Hz; inversion Hcyc as [? ? He|? y ? He _]; edge_cases He.
Qed.

Lemma scenario_prerequisites_reachable :
  prerequisites_reachable scenario_deps "A".
Proof. intros d p He _ _. edge_cases He; constructor. Qed.

Lemma topo_sort_acyclic_phases_witness :
  well_formed scenario_aliases scenario_deps ∧
  "A" ∈ dom scenario_aliases ∧
  acyclic_from scenario_deps "A" ∧
  ∃ g layers,
    build_graph scenario_aliases scenario_deps = Ok g ∧
    get_topo_sort g (graph_get g "A") = Ok layers ∧
    NoDup (mjoin layers) ∧
    (∀ v i j, in_phase layers v i → in_phase layers v j → i = j) ∧
    (∀ d p, (d, p) ∈ scenario_deps →
       reachable scenario_deps "A" d → reachable scenario_deps "A" p →
       (∀ j, in_phase layers d j → ∃ i, in_phase layers p i ∧ (i < j)%nat) ∧
       (∀ i j, in_phase layers p i → in_phase layers d j → (i < j)%nat)) ∧
    (prerequisites_reachable scenario_deps "A" →
       ∀ v, reachable scenario_deps "A" v →
         ∃ i, in_phase layers v i ∧ ∀ j, in_phase layers v j → j = i).
Proof.
  assert ("A" ∈ dom scenario_aliases) as Hs by by_compute.
  assert (acyclic_from scenario_deps "A") as Hacyc
    by (intros v _; apply scenario_no_cycle).
  split_and!; [apply scenario_well_formed | done | done |].
  exact (topo_sort_acyclic_phases scenario_aliases scenario_deps "A"
           scenario_well_formed Hs Hacyc).
Defined.

(** C1 fails as stated: B is reachable from A in an edge list without cycles,
    but it also waits for C, which the layering from A never emits, so B is
    in no phase. *)
Lemma topo_sort_outside_prerequisite_counterexample :
  well_formed scenario_aliases outside_deps ∧
  "A" ∈ dom scenario_aliases ∧
  acyclic_from outside_deps "A" ∧
  reachable outside_deps "A" "B" ∧
  ∃ g, build_graph scenario_aliases outside_deps = Ok g ∧
       get_topo_sort g (graph_get g "A") = Ok [["A"]]%string ∧
       ∀ i, ¬ in_phase [["A"]]%string "B" i.
Proof.
  split_and!.
  - apply outside_well_formed.
  - by_compute.
  - intros v _. apply outside_no_cycle.
  - apply rtc_once. unfold edge, outside_deps. by left.
  - destruct (schedule_Ok scenario_aliases outside_deps "A" [["A"]]%string)
      as (g & Hg & HR); [vm_compute; reflexivity|].
    exists g. split; [done|]. split.
    + done.
    + intros [|i] (L & HL & Hv); [|done]. injection HL as <-.
      by apply list_elem_of_singleton in Hv.
Qed.

Lemma cycle_away_well_formed : well_formed scenario_aliases cycle_away_deps.
Proof. intros e He. edge_cases He; split; by_compute. Qed.

Lemma cycle_away_start_off_cycle : ¬ on_cycle cycle_away_deps "A".
Proof.
  intros Hcyc. destruct (tc_last _ _ _ Hcyc) as (z & _ & Hz). edge_cases Hz.
Qed.

Lemma cycle_away_on_cycle :
  on_cycle cycle_away_deps "B" ∧ on_cycle cycle_away_deps "C".
Proof.
  assert (edge cycle_away_deps "C" "B") as Hcb
    by (unfold edge, cycle_away_deps; right; left).
  assert (edge cycle_away_deps "B" "C") as Hbc
    by (unfold edge, cycle_away_deps; right; right; left).
  split; (eapply tc_l; [|apply tc_once]); eassumption.
Qed.

(** The graph of the witness: B and C are reachable from A and form a cycle;
    layering from A ends after the first phase. *)
Example cycle_away_schedule :
  schedule scenario_aliases cycle_away_deps "A" = Ok [["A"]]%string.
Proof. vm_compute. reflexivity. Qed.

Lemma topo_sort_terminates_cycles_out_witness :
  well_formed scenario_aliases cycle_away_deps ∧
  "A" ∈ dom scenario_aliases ∧
  ¬ on_cycle cycle_away_deps "A" ∧
  on_cycle cycle_away_deps "B" ∧ on_cycle cycle_away_deps "C" ∧
  reachable cycle_away_deps "A" "B" ∧
  ∃ g layers,
    build_graph scenario_aliases cycle_away_deps = Ok g ∧
    get_topo_sort g (graph_get g "A") = Ok layers ∧
    (∀ fuel, (size g + 2 ≤ fuel)%nat →
             get_topo_sort_fuel fuel g (graph_get g "A") = Ok layers) ∧
    (¬ on_cycle cycle_away_deps "A" →
       ∀ v i, on_cycle cycle_away_deps v → ¬ in_phase layers v i) ∧
    (∀ i, ¬ in_phase layers "B" i ∧ ¬ in_phase layers "C" i).
Proof.
  assert ("A" ∈ dom scenario_aliases) as Hs by by_compute.
  destruct cycle_away_on_cycle as [HB HC].
  split; [exact cycle_away_well_formed|]. split; [exact Hs|].
  split; [exact cycle_away_start_off_cycle|]. split; [exact HB|]. split; [exact HC|].
  split; [apply rtc_once; unfold edge, cycle_away_deps; by left|].
  destruct (topo_sort_terminates_cycles_out scenario_aliases cycle_away_deps "A"
              cycle_away_well_formed Hs) as (g & layers & Hg & Hrun & Hfuel & Hout).
  exists g, layers. split; [exact Hg|]. split; [exact Hrun|].
  split; [exact Hfuel|]. split; [exact Hout|].
  intros i. split; apply (Hout cycle_away_start_off_cycle); assumption.
Defined.

(** C3 fails as stated: A and B depend on each other, and layering from A
    returns [A], [B], [A], so the aliases of the cycle are in the phase list. *)
Lemma topo_sort_cycle_through_start_counterexample :
  well_formed mutual_aliases mutual_deps ∧
  reachable mutual_deps "A" "B" ∧ on_cycle mutual_deps "B" ∧
  ∃ g, build_graph mutual_aliases mutual_deps = Ok g ∧
       get_topo_sort g (graph_get g "A") = Ok [["A"]; ["B"]; ["A"]]%string ∧
       in_phase [["A"]; ["B"]; ["A"]]%string "B" 1.
Proof.
  assert (edge mutual_deps "A" "B") as Hab by (unfold edge, mutual_deps; right; left).
  assert (edge mutual_deps "B" "A") as Hba by (unfold edge, mutual_deps; left).
  split_and!.
  - apply mutual_well_formed.
  - by apply rtc_once.
  - eapply tc_l; [exact Hba | by apply tc_once].
  - destruct (schedule_Ok mutual_aliases mutual_deps "A"
                [["A"]; ["B"]; ["A"]]%string)
      as (g & Hg & HR); [vm_compute; reflexivity|].
    exists g. split; [done|]. split.
    + done.
    + exists ["B"]%string. split; [done | by left].
Qed.

Lemma topo_sort_occurrences_witness :
  well_formed mutual_aliases mutual_deps ∧
  "A" ∈ dom mutual_aliases ∧
  ∃ g layers,
    build_graph mutual_aliases mutual_deps = Ok g ∧
    get_topo_sort g (graph_get g "A") = Ok layers ∧
    layers !! 0%nat = Some ["A"]%string ∧
    Forall NoDup layers ∧
    (∀ v, v ≠ "A"%string → (count v (mjoin layers) ≤ 1)%nat) ∧
    (count "A" (mjoin layers) ≤ 2)%nat ∧
    (¬ on_cycle mutual_deps "A" → NoDup (mjoin layers)).
Proof.
  assert ("A" ∈ dom mutual_aliases) as Hs by by_compute.
  split_and!; [apply mutual_well_formed | done |].
  exact (topo_sort_occurrences mutual_aliases mutual_deps "A" mutual_well_formed Hs).
Defined.

(** C4 fails as stated: an alias that depends on itself is emitted as phase 0
    and again as phase 1. *)
Lemma topo_sort_start_twice_counterexample :
  well_formed self_aliases self_deps ∧
  ∃ g, build_graph self_aliases self_deps = Ok g ∧
       get_topo_sort g (graph_get g "A") = Ok [["A"]; ["A"]]%string ∧
       in_phase [["A"]; ["A"]]%string "A" 0 ∧
       in_phase [["A"]; ["A"]]%string "A" 1.
Proof.
  split; [apply self_well_formed|].
  destruct (schedule_Ok self_aliases self_deps "A" [["A"]; ["A"]]%string)
    as (g & Hg & HR); [vm_compute; reflexivity|].
  exists g. split; [done|]. split_and!.
  - done.
  - exists ["A"]%string. split; [done | by left].
  - exists ["A"]%string. split; [done | by left].
Qed.

(** ** Status aggregation *)

Lemma count_le_length (s : string) (l : list string) : (count s l ≤ length l)%nat.
Proof. apply length_filter. Qed.

Lemma count_all (s : string) (l : list string) :
  count s l = length l ↔ Forall (λ x, x = s) l.
Proof.
  induction l as [|x l IH].
  - split; [constructor | done].
  - rewrite count_cons, Forall_cons, <- IH. simpl.
    pose proof (count_le_length s l). case_decide; split; try lia.
    + intros ?. split; [done | lia].
    + by intros [? ?].
Qed.

Lemma resolve_statuses_SUCCESS statuses ignore_failed :
  resolve_statuses statuses ignore_failed = SUCCESS ↔
  statuses ≠ [] ∧ Forall (λ s, s = "SUCCESS"%string) statuses.
Proof.
  unfold resolve_statuses. rewrite <- count_all.
  destruct (decide (statuses ≠ [])) as [Hne|Hne],
    (decide (count "SUCCESS" statuses = length statuses)) as [Hc|Hc];
    rewrite ?(bool_decide_eq_true_2 _ Hne), ?(bool_decide_eq_false_2 _ Hne),
      ?(bool_decide_eq_true_2 _ Hc), ?(bool_decide_eq_false_2 _ Hc); simpl;
    try (split; [done | tauto]);
    (destruct (_ || _); split; [done | tauto | done | tauto]).
Qed.

Lemma resolve_statuses_FAILED statuses ignore_failed :
  resolve_statuses statuses ignore_failed = FAILED ↔
  "FAILED"%string ∈ statuses ∨ (ignore_failed = false ∧ "ABORTED"%string ∈ statuses).
Proof.
  rewrite <- !count_pos. unfold resolve_statuses.
  destruct (decide (statuses ≠ [] ∧ count "SUCCESS" statuses = length statuses))
    as [[Hne Hall]|Hnot].
  - rewrite (bool_decide_eq_true_2 _ Hne), (bool_decide_eq_true_2 _ Hall). simpl.
    apply count_all in Hall. rewrite Forall_forall in Hall.
    split; [done|]. rewrite !count_pos.
    intros [H|[_ H]]; by apply Hall in H.
  - assert (bool_decide (statuses ≠ [])
            && bool_decide (count "SUCCESS" statuses = length statuses) = false) as ->.
    { apply andb_false_iff. rewrite !bool_decide_eq_false. 
      destruct (decide (statuses ≠ [])); [right | left]; tauto. }
    destruct ignore_failed; simpl;
      destruct (decide (0 < count "ABORTED" statuses)%nat) as [Ha|Ha],
        (decide (0 < count "FAILED" statuses)%nat) as [Hf|Hf];
      rewrite ?(bool_decide_eq_true_2 _ Ha), ?(bool_decide_eq_false_2 _ Ha),
        ?(bool_decide_eq_true_2 _ Hf), ?(bool_decide_eq_false_2 _ Hf); simpl;
      split; try done; try tauto; intros [?|[? ?]]; done.
Qed.

(** C2 (amended): [resolve_statuses] returns SUCCESS iff the list is not empty
    and every status equals SUCCESS; it returns FAILED iff some status equals
    FAILED, or ignore-failed is false and some status equals ABORTED; and it
    returns IN_PROGRESS in the remaining cases. *)
Theorem resolve_statuses_verdict statuses ignore_failed :
  (resolve_statuses statuses ignore_failed = SUCCESS ↔
     statuses ≠ [] ∧ Forall (λ s, s = "SUCCESS"%string) statuses) ∧
  (resolve_statuses statuses ignore_failed = FAILED ↔
     "FAILED"%string ∈ statuses ∨
     (ignore_failed = false ∧ "ABORTED"%string ∈ statuses)) ∧
  (resolve_statuses statuses ignore_failed = IN_PROGRESS ↔
     ¬ (statuses ≠ [] ∧ Forall (λ s, s = "SUCCESS"%string) statuses) ∧
     ¬ ("FAILED"%string ∈ statuses ∨
        (ignore_failed = false ∧ "ABORTED"%string ∈ statuses))).
Proof.
  split; [apply resolve_statuses_SUCCESS|]. split; [apply resolve_statuses_FAILED|].
  rewrite <- (resolve_statuses_SUCCESS statuses ignore_failed),
    <- resolve_statuses_FAILED.
  destruct (resolve_statuses statuses ignore_failed); split; try done;
    intros [? ?]; done.
Qed.

(** C2 fails as stated: every status of the empty list equals SUCCESS, and
    the verdict of the empty list is IN_PROGRESS. *)
Lemma resolve_statuses_empty_counterexample :
  Forall (λ s, s = "SUCCESS"%string) [] ∧
  resolve_statuses [] false = IN_PROGRESS ∧
  resolve_statuses [] true = IN_PROGRESS.
Proof. split; [constructor | split; reflexivity]. Qed.

(** ** Exclusion filter *)

Lemma elem_of_kept exclude_aliases nodes v :
  v ∈ kept exclude_aliases nodes ↔ v ∈ nodes ∧ v ∉ exclude_aliases.
Proof.
  unfold kept. rewrite elem_of_list_to_set, list_elem_of_filter. tauto.
Qed.

(** On a list without repetition whose members are all in the copy, the inner
    loop removes the excluded members and never raises. *)
Lemma remove_excluded_spec exclude_aliases nodes : ∀ (X : gset string),
  NoDup nodes → (∀ v, v ∈ nodes → v ∈ X) →
  ∃ Y, remove_excluded nodes exclude_aliases X = Ok Y ∧
       ∀ v, v ∈ Y ↔ v ∈ X ∧ ¬ (v ∈ nodes ∧ v ∈ exclude_aliases).
Proof.
  induction nodes as [|node rest IH]; intros X Hnd HX; simpl.
  - exists X. split; [done|]. intros v. rewrite elem_of_nil. tauto.
  - apply NoDup_cons in Hnd as [Hnode Hnd].
    destruct (decide (node ∈ exclude_aliases)) as [Hex|Hex].
    + rewrite decide_True by (apply HX; left).
      destruct (IH (X ∖ {[node]}) Hnd) as (Y & -> & HY).
      { intros v Hv. apply elem_of_difference. split; [apply HX; by right|].
        rewrite elem_of_singleton. by intros ->. }
      exists Y. split; [done|]. intros v.
      rewrite HY, elem_of_difference, elem_of_singleton, elem_of_cons.
      destruct (decide (v = node)) as [->|]; tauto.
    + destruct (IH X Hnd) as (Y & -> & HY).
      { intros v Hv. apply HX. by right. }
      exists Y. split; [done|]. intros v. rewrite HY, elem_of_cons.
      destruct (decide (v = node)) as [->|]; tauto.
Qed.

Lemma remove_excluded_kept exclude_aliases nodes :
  NoDup nodes →
  remove_excluded nodes exclude_aliases (list_to_set nodes)
  = Ok (kept exclude_aliases nodes).
Proof.
  intros Hnd.
  destruct (remove_excluded_spec exclude_aliases nodes (list_to_set nodes) Hnd)
    as (Y & -> & HY).
  { intros v. by rewrite elem_of_list_to_set. }
  f_equal. apply set_eq. intros v.
  rewrite HY, elem_of_kept, elem_of_list_to_set. tauto.
Qed.

(** The phases that come back: the kept members of each phase, without the
    phases that keep none. *)
Lemma filter_excluded_nodes_spec exclude_aliases phases :
  Forall NoDup phases →
  filter_excluded_nodes phases exclude_aliases
  = Ok (filter (λ X, X ≠ ∅) (kept exclude_aliases <$> phases)).
Proof.
  induction 1 as [|nodes rest Hnd _ IH]; [done|].
  cbn [filter_excluded_nodes]. rewrite (remove_excluded_kept _ _ Hnd), IH.
  rewrite fmap_cons, filter_cons. f_equal.
  destruct (decide (kept exclude_aliases nodes = ∅)) as [He|He].
  - by rewrite decide_False by (by intros ?).
  - by rewrite decide_True by done.
Qed.

Lemma surviving_before_0 exclude_aliases phases :
  surviving_before exclude_aliases phases 0 = 0%nat.
Proof. unfold surviving_before. by rewrite take_0. Qed.

Lemma surviving_before_S exclude_aliases L phases i :
  surviving_before exclude_aliases (L :: phases) (S i) =
  ((if decide (kept exclude_aliases L ≠ ∅) then 1 else 0)
   + surviving_before exclude_aliases phases i)%nat.
Proof.
  unfold surviving_before. cbn [take]. rewrite filter_cons. by case_decide.
Qed.

Lemma filtered_lookup exclude_aliases phases : ∀ i L,
  phases !! i = Some L → kept exclude_aliases L ≠ ∅ →
  filter (λ X, X ≠ ∅) (kept exclude_aliases <$> phases)
    !! surviving_before exclude_aliases phases i = Some (kept exclude_aliases L).
Proof.
  induction phases as [|L0 phases IH]; intros i L Hi HL; [done|].
  rewrite fmap_cons, filter_cons. destruct i as [|i]; simpl in Hi.
  - injection Hi as ->. rewrite surviving_before_0. by rewrite decide_True.
  - rewrite surviving_before_S. specialize (IH i L Hi HL).
    destruct (decide (kept exclude_aliases L0 ≠ ∅)); simpl; done.
Qed.

Lemma filtered_lookup_inv exclude_aliases phases : ∀ j X,
  filter (λ X, X ≠ ∅) (kept exclude_aliases <$> phases) !! j = Some X →
  ∃ i L, phases !! i = Some L ∧ X = kept exclude_aliases L ∧
         j = surviving_before exclude_aliases phases i.
Proof.
  induction phases as [|L0 phases IH]; intros j X; [done|].
  rewrite fmap_cons, filter_cons.
  destruct (decide (kept exclude_aliases L0 ≠ ∅)) as [Hk|Hk].
  - destruct j as [|j]; simpl.
    + intros [= <-]. exists 0%nat, L0. by rewrite surviving_before_0.
    + intros (i & L & Hi & -> & ->)%IH. exists (S i), L.
      by rewrite surviving_before_S, decide_True.
  - intros (i & L & Hi & -> & ->)%IH. exists (S i), L.
    by rewrite surviving_before_S, decide_False.
Qed.

Lemma surviving_dropped exclude_aliases phases i :
  (i ≤ length phases)%nat →
  (surviving_before exclude_aliases phases i
   + dropped_before exclude_aliases phases i = i)%nat.
Proof.
  intros Hi. unfold surviving_before, dropped_before.
  rewrite <- (length_take_le phases i Hi) at 3.
  induction (take i phases) as [|L l IH]; [done|].
  rewrite !filter_cons. simpl.
  destruct (decide (kept exclude_aliases L = ∅)).
  - rewrite decide_False by (by intros ?). simpl. lia.
  - rewrite decide_True by done. simpl. lia.
Qed.

(** The inner loop on a phase that lists no excluded alias twice. *)
Lemma remove_excluded_once exclude_aliases nodes : ∀ (X : gset string),
  (∀ v, v ∈ exclude_aliases → (count v nodes ≤ 1)%nat) →
  (∀ v, v ∈ exclude_aliases → v ∈ nodes → v ∈ X) →
  ∃ Y, remove_excluded nodes exclude_aliases X = Ok Y ∧
       ∀ v, v ∈ Y ↔ v ∈ X ∧ ¬ (v ∈ nodes ∧ v ∈ exclude_aliases).
Proof.
  induction nodes as [|node rest IH]; intros X Hone HX; simpl.
  - exists X. split; [done|]. intros v. rewrite elem_of_nil. tauto.
  - assert (∀ v, v ∈ exclude_aliases → (count v rest ≤ 1)%nat) as Hone'.
    { intros v Hv. specialize (Hone v Hv). rewrite count_cons in Hone. lia. }
    destruct (decide (node ∈ exclude_aliases)) as [Hex|Hex].
    + rewrite decide_True by (apply HX; [done | by left]).
      assert (node ∉ rest) as Hnode.
      { apply count_zero. specialize (Hone node Hex).
        rewrite count_cons, decide_True in Hone by done. lia. }
      destruct (IH (X ∖ {[node]}) Hone') as (Y & -> & HY).
      { intros v Hv Hin. apply elem_of_difference. split; [apply HX; [done | by right]|].
        rewrite elem_of_singleton. by intros ->. }
      exists Y. split; [done|]. intros v.
      rewrite HY, elem_of_difference, elem_of_singleton, elem_of_cons.
      destruct (decide (v = node)) as [->|]; tauto.
    + destruct (IH X Hone') as (Y & -> & HY).
      { intros v Hv Hin. apply HX; [done | by right]. }
      exists Y. split; [done|]. intros v. rewrite HY, elem_of_cons.
      destruct (decide (v = node)) as [->|]; tauto.
Qed.

Lemma filter_excluded_nodes_once exclude_aliases phases :
  (∀ L v, L ∈ phases → v ∈ exclude_aliases → (count v L ≤ 1)%nat) →
  filter_excluded_nodes phases exclude_aliases
  = Ok (filter (λ X, X ≠ ∅) (kept exclude_aliases <$> phases)).
Proof.
  induction phases as [|nodes rest IH]; intros Hone; [done|].
  cbn [filter_excluded_nodes].
  destruct (remove_excluded_once exclude_aliases nodes (list_to_set nodes))
    as (Y & -> & HY).
  { intros v Hv. apply (Hone nodes v); [by left | done]. }
  { intros v _ Hv. by apply elem_of_list_to_set. }
  assert (Y = kept exclude_aliases nodes) as ->.
  { apply set_eq. intros v. rewrite HY, elem_of_kept, elem_of_list_to_set. tauto. }
  rewrite IH by (intros L v HL; apply Hone; by right).
  rewrite fmap_cons, filter_cons. f_equal.
  destruct (decide (kept exclude_aliases nodes = ∅)) as [He|He].
  - by rewrite decide_False by (by intros ?).
  - by rewrite decide_True by done.
Qed.

Lemma length_filtered exclude_aliases (phases : list (list string)) :
  length (filter (λ X : gset string, X ≠ ∅) (kept exclude_aliases <$> phases))
  = surviving_before exclude_aliases phases (length phases).
Proof.
  unfold surviving_before. rewrite firstn_all.
  induction phases as [|L phases IH]; [done|].
  rewrite fmap_cons, !filter_cons.
  destruct (decide (kept exclude_aliases L ≠ ∅)); simpl; by rewrite IH.
Qed.

(** C5 (amended): on a phase list in which no phase lists an excluded alias
    twice, the exclusion filter returns the kept members of each phase, in
    the order of the phases and without the phases that keep no member: no
    returned phase is empty, no excluded alias is left, every member of a
    returned phase comes from the phase list, and a non-excluded node of
    phase [i] ends at index [i] minus the number of earlier phases that are
    wholly excluded. *)
Theorem filter_excluded_nodes_positions phases exclude_aliases :
  (∀ L v, L ∈ phases → v ∈ exclude_aliases → (count v L ≤ 1)%nat) →
  ∃ result,
    filter_excluded_nodes phases exclude_aliases = Ok result ∧
    result = filter (λ X, X ≠ ∅) (kept exclude_aliases <$> phases) ∧
    Forall (λ X, X ≠ ∅) result ∧
    length result = surviving_before exclude_aliases phases (length phases) ∧
    (∀ v j, in_set_phase result v j →
       (v ∉ exclude_aliases) ∧
       ∃ i, in_phase phases v i ∧ j = surviving_before exclude_aliases phases i) ∧
    (∀ v i, v ∉ exclude_aliases → in_phase phases v i →
       in_set_phase result v (surviving_before exclude_aliases phases i) ∧
       (surviving_before exclude_aliases phases i
        + dropped_before exclude_aliases phases i = i)%nat).
Proof.
  intros Hone. eexists. split; [by apply filter_excluded_nodes_once|].
  split; [done|]. split; [|split; [apply length_filtered|split]].
  - apply Forall_forall. by intros X [? _]%list_elem_of_filter.
  - intros v j (X & (i & L & Hi & -> & ->)%filtered_lookup_inv & [Hv Hex]%elem_of_kept).
    split; [done|]. exists i. split; [by exists L | done].
  - intros v i Hex (L & Hi & Hv).
    assert (v ∈ kept exclude_aliases L) as Hk by by apply elem_of_kept.
    split.
    + exists (kept exclude_aliases L). split; [|done].
      apply filtered_lookup; [done|]. intros He. rewrite He in Hk.
      by apply not_elem_of_empty in Hk.
    + apply surviving_dropped. apply lookup_lt_Some in Hi. lia.
Qed.

(** The phases of the witness: excluding B and C drops the phase of B, and D
    moves from index 2 to index 1. *)
Example filter_drops_emptied_phase :
  filter_excluded_nodes [["A"]; ["B"]; ["C"; "D"]]%string ["B"; "C"]%string
  = Ok [{["A"%string]}; {["D"%string]}].
Proof. vm_compute. reflexivity. Qed.

Lemma filter_excluded_nodes_positions_witness :
  let phases := [["A"]; ["B"]; ["C"; "D"]]%string in
  let exclude_aliases := ["B"; "C"]%string in
  (∀ L v, L ∈ phases → v ∈ exclude_aliases → (count v L ≤ 1)%nat) ∧
  ∃ result,
    filter_excluded_nodes phases exclude_aliases = Ok result ∧
    result = filter (λ X, X ≠ ∅) (kept exclude_aliases <$> phases) ∧
    Forall (λ X, X ≠ ∅) result ∧
    length result = surviving_before exclude_aliases phases (length phases) ∧
    (∀ v j, in_set_phase result v j →
       (v ∉ exclude_aliases) ∧
       ∃ i, in_phase phases v i ∧ j = surviving_before exclude_aliases phases i) ∧
    (∀ v i, v ∉ exclude_aliases → in_phase phases v i →
       in_set_phase result v (surviving_before exclude_aliases phases i) ∧
       (surviving_before exclude_aliases phases i
        + dropped_before exclude_aliases phases i = i)%nat).
Proof.
  intros phases exclude_aliases.
  assert (∀ L v, L ∈ phases → v ∈ exclude_aliases → (count v L ≤ 1)%nat) as Hone.
  { intros L v HL Hv.
    repeat (apply elem_of_cons in HL as [->|HL]);
      [..|by apply elem_of_nil in HL];
      repeat (apply elem_of_cons in Hv as [->|Hv]);
      try (by apply elem_of_nil in Hv); vm_compute; lia. }
  split; [exact Hone|].
  exact (filter_excluded_nodes_positions phases exclude_aliases Hone).
Defined.

(** C5 fails as stated: excluding the only member of phase 0 drops that
    phase, and the node of phase 1 moves to index 0. *)
Lemma filter_excluded_nodes_shift_counterexample :
  ("B"%string ∉ ["A"]%string) ∧
  in_phase [["A"]; ["B"]]%string "B" 1 ∧
  ∃ result,
    filter_excluded_nodes [["A"]; ["B"]]%string ["A"]%string = Ok result ∧
    in_set_phase result "B" 0 ∧ ¬ in_set_phase result "B" 1.
Proof.
  split; [by_compute|]. split; [exists ["B"]%string; split; [done | by left]|].
  exists [{["B"%string]}]. split; [by vm_compute|]. split.
  - exists {["B"%string]}. split; [done | by apply elem_of_singleton].
  - by intros (X & HX & _).
Qed.

(** ** One polling tick *)

Section Polling.
Context {Server : Type} (jenkins : Jenkins Server).

Lemma get_build_stages_returns item w :
  (get_build_stages jenkins item w).2 ≠ OutOfFuel.
Proof.
  unfold get_build_stages.
  destruct (jenkins_get_build_stages _ _ _ _) as [s1 [a|e]]; done.
Qed.

Lemma fetch_stage_info_returns tries : ∀ item w,
  (fetch_stage_info jenkins tries item w).2 ≠ OutOfFuel.
Proof.
  induction tries as [|tries IH]; intros item w; [done|]. simpl.
  pose proof (get_build_stages_returns item w) as H.
  destruct (get_build_stages jenkins item w) as [w1 [[info|]| |]];
    first [done | apply IH].
Qed.

(** Lookups that all come back empty use up the retries. *)
Lemma fetch_stage_info_absent item n w w' :
  absent_run jenkins item n w w' ↔
  fetch_stage_info jenkins n item w = (w', Ok None).
Proof.
  split.
  - induction 1 as [w|n w w1 w2 Hget _ IH]; [done|]. simpl. by rewrite Hget.
  - revert w. induction n as [|n IH]; intros w; simpl.
    + intros [= <-]. constructor.
    + destruct (get_build_stages jenkins item w) as [w1 [[info|]| |]] eqn:Hget;
        try done.
      intros H. econstructor; [done | by apply IH].
Qed.

(** [get_build_stage_info] raises [IOError] when the retry bound is
    exhausted. *)
Lemma get_build_stage_info_exhausted item w w' :
  absent_run jenkins item RETRIES_COUNT_GET_BUILD_STAGE w w' →
  get_build_stage_info jenkins item w = (w', Raise IOError).
Proof.
  intros H%fetch_stage_info_absent. unfold get_build_stage_info. by rewrite H.
Qed.

Lemma get_build_stage_info_returns item w :
  (get_build_stage_info jenkins item w).2 ≠ OutOfFuel.
Proof.
  unfold get_build_stage_info.
  pose proof (fetch_stage_info_returns RETRIES_COUNT_GET_BUILD_STAGE item w) as Hret.
  by destruct (fetch_stage_info _ _ _ _) as [w1 [[info|]|e|]].
Qed.

(** No exception leaves the body of the polling loop. *)
Lemma poll_item_Ok item w :
  ∃ w' item', poll_item jenkins item w = (w', Ok item').
Proof.
  unfold poll_item. destruct (is_terminal (status item)); [by eauto|].
  pose proof (get_build_stage_info_returns item w) as Hret.
  destruct (get_build_stage_info jenkins item w) as [w1 [info|e|]]; by eauto.
Qed.

Lemma poll_tick_Ok items : ∀ w,
  ∃ w' items', poll_tick jenkins items w = (w', Ok items').
Proof.
  induction items as [|item rest IH]; intros w; simpl; [by eauto|].
  destruct (poll_item_Ok item w) as (w1 & item' & ->).
  destruct (IH w1) as (w2 & rest' & ->). by eauto.
Qed.

Lemma poll_tick_app pre : ∀ post w w1 w2 pre' post',
  poll_tick jenkins pre w = (w1, Ok pre') →
  poll_tick jenkins post w1 = (w2, Ok post') →
  poll_tick jenkins (pre ++ post) w = (w2, Ok (pre' ++ post')).
Proof.
  induction pre as [|item pre IH]; intros post w w1 w2 pre' post'; simpl.
  - by intros [= <- <-].
  - destruct (poll_item jenkins item w) as [wa [item'| |]]; [|done..].
    destruct (poll_tick jenkins pre wa) as [wb [rest'| |]] eqn:Hpre; [|done..].
    intros [= <- <-] Hpost. by rewrite (IH post wa wb w2 rest' post' Hpre Hpost).
Qed.

(** A record in a terminal status is not polled again. *)
Lemma poll_tick_terminal items : ∀ w,
  Forall (λ item, is_terminal (status item) = true) items →
  poll_tick jenkins items w = (w, Ok items).
Proof.
  induction items as [|item rest IH]; intros w Hall; [done|].
  apply Forall_cons in Hall as [Hitem Hrest]. simpl.
  unfold poll_item. by rewrite Hitem, (IH w Hrest).
Qed.

(** C6: when the status lookups for one job come back empty for the whole
    retry bound, the polling tick still returns normally, the record of that
    job has status FAILED and is otherwise unchanged, the records before it
    are as they were polled, and the records after it are polled from the
    world the failed lookups left. *)
Theorem poll_tick_retries_exhausted pre item post w w1 w2 pre' :
  poll_tick jenkins pre w = (w1, Ok pre') →
  is_terminal (status item) = false →
  absent_run jenkins item RETRIES_COUNT_GET_BUILD_STAGE w1 w2 →
  ∃ w3 post',
    poll_tick jenkins post w2 = (w3, Ok post') ∧
    poll_tick jenkins (pre ++ item :: post) w
    = (w3, Ok (pre' ++ set_status "FAILED" item :: post')) ∧
    status (set_status "FAILED" item) = "FAILED"%string.
Proof.
  intros Hpre Hterm Habsent.
  destruct (poll_tick_Ok post w2) as (w3 & post' & Hpost).
  exists w3, post'. split; [done|]. split; [|done].
  apply (poll_tick_app pre (item :: post) w w1 w3); [done|].
  simpl. unfold poll_item.
  by rewrite Hterm, (get_build_stage_info_exhausted _ _ _ Habsent), Hpost.
Qed.

End Polling.

(** ** One phase *)

Section Phase.
Context {Server : Type} (jenkins : Jenkins Server).

(** Nothing is printed while a phase is built. *)
Lemma init_build_items_stdout nodes aliases : ∀ w,
  stdout (init_build_items jenkins nodes aliases w).1 = stdout w.
Proof.
  induction nodes as [|node rest IH]; intros w; simpl; [done|].
  destruct (aliases !! node) as [job|]; [|done].
  unfold get_next_build_num.
  destruct (get_job_info_nextBuildNumber jenkins job (server w)) as [s1 [num|e]];
    simpl; [|done].
  match goal with |- context [init_build_items jenkins rest aliases ?w1] =>
    specialize (IH w1); destruct (init_build_items jenkins rest aliases w1)
      as [w2 [items| |]] end; done.
Qed.

Lemma submit_build_and_wait_stdout items : ∀ w,
  stdout (submit_build_and_wait jenkins items w) = stdout w.
Proof.
  unfold submit_build_and_wait.
  induction items as [|item rest IH]; intros w; simpl; [done|]. by rewrite IH.
Qed.

Lemma fetch_stage_info_stdout tries item : ∀ w,
  stdout (fetch_stage_info jenkins tries item w).1 = stdout w.
Proof.
  induction tries as [|tries IH]; intros w; simpl; [done|].
  unfold get_build_stages.
  destruct (jenkins_get_build_stages jenkins _ _ _) as [s1 [[info|]|e]];
    simpl; [done| |done].
  by rewrite IH.
Qed.

Lemma poll_item_stdout item w : stdout (poll_item jenkins item w).1 = stdout w.
Proof.
  unfold poll_item. destruct (is_terminal (status item)); [done|].
  unfold get_build_stage_info.
  pose proof (fetch_stage_info_stdout RETRIES_COUNT_GET_BUILD_STAGE item w) as H.
  by destruct (fetch_stage_info _ _ _ _) as [w1 [[info|]|e|]].
Qed.

Lemma poll_tick_stdout items : ∀ w,
  stdout (poll_tick jenkins items w).1 = stdout w.
Proof.
  induction items as [|item rest IH]; intros w; simpl; [done|].
  pose proof (poll_item_stdout item w) as H.
  destruct (poll_item jenkins item w) as [w1 [item'| |]]; [|done..].
  specialize (IH w1).
  destruct (poll_tick jenkins rest w1) as [w2 [rest'| |]]; simpl in *; congruence.
Qed.

Lemma poll_loop_stdout fuel ignore_failed : ∀ items w,
  stdout (poll_loop jenkins fuel items ignore_failed w).1 = stdout w.
Proof.
  induction fuel as [|fuel IH]; intros items w; simpl; [done|].
  pose proof (poll_tick_stdout items w) as H.
  destruct (poll_tick jenkins items w) as [w1 [items'| |]]; [|done..].
  case_bool_decide; [done|]. rewrite IH. done.
Qed.

Lemma build_phase_stdout fuel nodes aliases ignore_failed w :
  stdout (build_phase jenkins fuel nodes aliases ignore_failed w).1 = stdout w.
Proof.
  unfold build_phase.
  pose proof (init_build_items_stdout nodes aliases w) as H.
  destruct (init_build_items jenkins nodes aliases w) as [w1 [items| |]]; [|done..].
  pose proof (poll_loop_stdout fuel ignore_failed items
                (submit_build_and_wait jenkins items w1)) as H2.
  rewrite submit_build_and_wait_stdout in H2.
  destruct (poll_loop _ _ _ _ _) as [w3 [[items' verdict]| |]]; simpl in *; congruence.
Qed.

Lemma poll_loop_S fuel items ignore_failed w :
  poll_loop jenkins (S fuel) items ignore_failed w =
  match poll_tick jenkins items w with
  | (w1, Ok items') =>
      if bool_decide (resolve_statuses (status <$> items') ignore_failed
                      ∈ [FAILED; SUCCESS])
      then (w1, Ok (items', resolve_statuses (status <$> items') ignore_failed))
      else poll_loop jenkins fuel items' ignore_failed w1
  | (w1, Raise e) => (w1, Raise e)
  | (w1, OutOfFuel) => (w1, OutOfFuel)
  end.
Proof. reflexivity. Qed.


(** Once every record is terminal and the verdict is IN_PROGRESS, the loop
    never ends. *)
Lemma poll_loop_stuck items ignore_failed :
  Forall (λ item, is_terminal (status item) = true) items →
  resolve_statuses (status <$> items) ignore_failed = IN_PROGRESS →
  ∀ fuel w, poll_loop jenkins fuel items ignore_failed w = (w, OutOfFuel).
Proof.
  intros Hterm Hres fuel. induction fuel as [|fuel IH]; intros w; [done|].
  rewrite poll_loop_S, (poll_tick_terminal jenkins items w Hterm), Hres.
  rewrite bool_decide_eq_false_2; [apply IH|].
  intros Hv. apply elem_of_cons in Hv as [?|Hv]; [done|].
  apply elem_of_cons in Hv as [?|Hv]; [done|]. by apply elem_of_nil in Hv.
Qed.





(** Under ignore-failed a phase that returns, returns IN_PROGRESS. *)
Lemma build_phase_ignore_failed fuel nodes aliases w w' r :
  build_phase jenkins fuel nodes aliases true w = (w', Ok r) → r = IN_PROGRESS.
Proof.
  unfold build_phase.
  destruct (init_build_items jenkins nodes aliases w) as [w1 [items| |]]; [|done..].
  destruct (poll_loop _ _ _ _ _) as [w3 [[items' verdict]| |]]; [|done..].
  by intros [= <- <-].
Qed.

(** A phase whose records are all terminal after the first tick, with the
    verdict IN_PROGRESS, never returns. *)
Lemma build_phase_stuck nodes aliases ignore_failed w w1 w2 items items' :
  init_build_items jenkins nodes aliases w = (w1, Ok items) →
  poll_tick jenkins items (submit_build_and_wait jenkins items w1) = (w2, Ok items') →
  Forall (λ item, is_terminal (status item) = true) items' →
  resolve_statuses (status <$> items') ignore_failed = IN_PROGRESS →
  ∀ fuel, build_phase jenkins fuel nodes aliases ignore_failed w
          = (if fuel is O then submit_build_and_wait jenkins items w1 else w2,
             OutOfFuel).
Proof.
  intros Hinit Htick Hterm Hres fuel. unfold build_phase. rewrite Hinit.
  destruct fuel as [|fuel]; [done|].
  rewrite poll_loop_S, Htick, Hres.
  rewrite bool_decide_eq_false_2.
  - by rewrite (poll_loop_stuck items' ignore_failed Hterm Hres fuel w2).
  - intros Hv. apply elem_of_cons in Hv as [?|Hv]; [done|].
    apply elem_of_cons in Hv as [?|Hv]; [done|]. by apply elem_of_nil in Hv.
Qed.

End Phase.

Lemma poll_tick_retries_exhausted_witness :
  let a := fresh_item "job-a" in
  let b := fresh_item "job-b" in
  let c := fresh_item "job-c" in
  let w1 := (poll_tick job_b_silent [a] world0).1 in
  let pre' := [update_build_item_from_stage_info a (mkStageInfo "SUCCESS" 0 None)] in
  let w2 := (fetch_stage_info job_b_silent RETRIES_COUNT_GET_BUILD_STAGE b w1).1 in
  poll_tick job_b_silent [a] world0 = (w1, Ok pre') ∧
  is_terminal (status b) = false ∧
  absent_run job_b_silent b RETRIES_COUNT_GET_BUILD_STAGE w1 w2 ∧
  ∃ w3 post',
    poll_tick job_b_silent [c] w2 = (w3, Ok post') ∧
    poll_tick job_b_silent ([a] ++ b :: [c]) world0
    = (w3, Ok (pre' ++ set_status "FAILED" b :: post')) ∧
    status (set_status "FAILED" b) = "FAILED"%string.
Proof.
  intros a b c w1 pre' w2.
  assert (poll_tick job_b_silent [a] world0 = (w1, Ok pre')) as H1
    by (vm_compute; reflexivity).
  assert (is_terminal (status b) = false) as H2 by (vm_compute; reflexivity).
  assert (absent_run job_b_silent b RETRIES_COUNT_GET_BUILD_STAGE w1 w2) as H3.
  { apply fetch_stage_info_absent. vm_compute. reflexivity. }
  split; [exact H1|]. split; [exact H2|]. split; [exact H3|].
  exact (poll_tick_retries_exhausted job_b_silent [a] b [c] world0 w1 w2 pre' H1 H2 H3).
Defined.

(** C7 is not met by the code: with ignore-failed set, a phase whose only job
    is reported ABORTED never returns.  The record is terminal, so it is not
    polled again, and the verdict of its status stays IN_PROGRESS. *)
Theorem build_phase_aborted_ignored_never_returns (fuel : nat) :
  (build_phase all_aborted fuel ["A"]%string self_aliases true world0).2 = OutOfFuel.
Proof.
  rewrite (build_phase_stuck all_aborted ["A"]%string self_aliases true world0
             (mkWorld () [CallGetJobInfo "job-a"] [])
             (mkWorld () [CallGetJobInfo "job-a"; CallBuildJob "job-a";
                          CallGetBuildStages "job-a" 1] [])
             [fresh_item "job-a"]
             [update_build_item_from_stage_info (fresh_item "job-a")
                (mkStageInfo "ABORTED" 0 None)]).
  - done.
  - vm_compute. reflexivity.
  - vm_compute. reflexivity.
  - repeat constructor.
  - vm_compute. reflexivity.
Qed.


(** ** The driver *)

Section Driver.
Context {Server : Type} (jenkins : Jenkins Server).
Context (fuel : nat) (aliases : gmap string string) (ignore_failed : bool).

(** Phases that return something else than FAILED are all executed, and the
    loop goes on with the phases after them. *)
Lemma run_phases_app pre : ∀ k w verdicts w1 rest,
  phases_run jenkins fuel aliases ignore_failed k pre w verdicts w1 →
  FAILED ∉ verdicts →
  run_phases jenkins fuel k (pre ++ rest) aliases ignore_failed w
  = run_phases jenkins fuel (k + length pre) rest aliases ignore_failed w1.
Proof.
  induction pre as [|nodes pre IH]; intros k w verdicts w1 rest Hrun Hok.
  - inversion Hrun; subst. simpl. by rewrite Nat.add_0_r.
  - inversion Hrun as [|? ? ? ? wa ? verdict vs Hphase Hrest]; subst.
    apply not_elem_of_cons in Hok as [Hv Hvs].
    cbn [app run_phases]. rewrite Hphase.
    rewrite bool_decide_eq_false_2 by done.
    rewrite (IH (S k) wa vs w1 rest Hrest Hvs). f_equal. simpl. lia.
Qed.

(** The phases that were executed printed their numbers, in order. *)
Lemma phases_run_stdout pre : ∀ k w verdicts w1,
  phases_run jenkins fuel aliases ignore_failed k pre w verdicts w1 →
  stdout w1 = stdout w ++ (PrintBuildPhase <$> seq (k + 1) (length pre)).
Proof.
  induction pre as [|nodes pre IH]; intros k w verdicts w1 Hrun.
  - inversion Hrun; subst. simpl. by rewrite app_nil_r.
  - inversion Hrun as [|? ? ? ? wa ? verdict vs Hphase Hrest]; subst.
    rewrite (IH (S k) wa vs w1 Hrest).
    pose proof (build_phase_stdout jenkins fuel nodes aliases ignore_failed
                  (print (PrintBuildPhase (k + 1)) w)) as Hout.
    rewrite Hphase in Hout. simpl in Hout. rewrite Hout.
    rewrite <- app_assoc. simpl. by rewrite Nat.add_1_r.
Qed.

(** C8: the driver executes the phases in order.  When the phases of [pre]
    all return something else than FAILED, the driver on [pre] alone executes
    them all and reports SUCCESS; and when the phase after them returns
    FAILED, the driver reports FAILED from the world that this phase leaves,
    whatever phases follow: none of them is executed. *)
Theorem drive_stops_at_first_failure pre w verdicts w1 :
  phases_run jenkins fuel aliases ignore_failed 0 pre w verdicts w1 →
  FAILED ∉ verdicts →
  (drive jenkins fuel pre aliases ignore_failed w
   = (print (PrintFinalStatus SUCCESS) w1, Ok SUCCESS) ∧
   stdout w1 = stdout w ++ (PrintBuildPhase <$> seq 1 (length pre))) ∧
  ∀ nodes post w2,
    build_phase jenkins fuel nodes aliases ignore_failed
      (print (PrintBuildPhase (length pre + 1)) w1) = (w2, Ok FAILED) →
    drive jenkins fuel (pre ++ nodes :: post) aliases ignore_failed w
    = (print (PrintFinalStatus FAILED) w2, Ok FAILED) ∧
    stdout w2 = stdout w ++ (PrintBuildPhase <$> seq 1 (length pre + 1)).
Proof.
  intros Hrun Hok. pose proof (phases_run_stdout pre 0 w verdicts w1 Hrun) as Hout.
  split; [split; [|done]|].
  - unfold drive. rewrite <- (app_nil_r pre) at 1.
    by rewrite (run_phases_app pre 0 w verdicts w1 [] Hrun Hok).
  - intros nodes post w2 Hfail. split.
    + unfold drive.
      rewrite (run_phases_app pre 0 w verdicts w1 (nodes :: post) Hrun Hok).
      cbn [run_phases]. simpl. by rewrite Hfail.
    + pose proof (build_phase_stdout jenkins fuel nodes aliases ignore_failed
                    (print (PrintBuildPhase (length pre + 1)) w1)) as H2.
      rewrite Hfail in H2. simpl in H2. rewrite H2, Hout.
      rewrite <- app_assoc, (Nat.add_1_r (length pre)), seq_S, fmap_app.
      done.
Qed.

End Driver.

Lemma drive_stops_at_first_failure_witness :
  let w1 := (build_phase job_b_fails 3 ["A"]%string scenario_aliases false
               (print (PrintBuildPhase 1) world0)).1 in
  phases_run job_b_fails 3 scenario_aliases false 0 [["A"]]%string world0
             [IN_PROGRESS] w1 ∧
  (FAILED ∉ [IN_PROGRESS]) ∧
  (drive job_b_fails 3 [["A"]]%string scenario_aliases false world0
   = (print (PrintFinalStatus SUCCESS) w1, Ok SUCCESS) ∧
   stdout w1 = stdout world0 ++ (PrintBuildPhase <$> seq 1 (length [["A"]]%string))) ∧
  ∀ nodes post w2,
    build_phase job_b_fails 3 nodes scenario_aliases false
      (print (PrintBuildPhase (length [["A"]]%string + 1)) w1) = (w2, Ok FAILED) →
    drive job_b_fails 3 ([["A"]]%string ++ nodes :: post) scenario_aliases false world0
    = (print (PrintFinalStatus FAILED) w2, Ok FAILED) ∧
    stdout w2 = stdout world0
                ++ (PrintBuildPhase <$> seq 1 (length [["A"]]%string + 1)).
Proof.
  intros w1.
  assert (phases_run job_b_fails 3 scenario_aliases false 0 [["A"]]%string world0
            [IN_PROGRESS] w1) as Hrun.
  { econstructor; [vm_compute; reflexivity | constructor]. }
  assert (FAILED ∉ [IN_PROGRESS]) as Hok by by_compute.
  split; [exact Hrun|]. split; [exact Hok|].
  exact (drive_stops_at_first_failure job_b_fails 3 scenario_aliases false
           [["A"]]%string world0 [IN_PROGRESS] w1 Hrun Hok).
Defined.

(** The failing phase of the witness: job-b fails in phase 2, and phase 3 is
    not started. *)
Example drive_job_b_fails :
  (drive job_b_fails 3 [["A"]; ["B"]; ["C"]]%string scenario_aliases false world0).2
  = Ok FAILED ∧
  stdout (drive job_b_fails 3 [["A"]; ["B"]; ["C"]]%string scenario_aliases false
            world0).1
  = [PrintBuildPhase 1; PrintBuildPhase 2; PrintFinalStatus FAILED].
Proof. split; vm_compute; reflexivity. Qed.

(** ** Undeclared aliases *)

Lemma add_deps_outcome deps : ∀ g,
  (∃ g', add_deps g deps = Ok g') ∨ add_deps g deps = Raise AttributeError.
Proof.
  induction deps as [|dep deps IH]; intros g; simpl; [by eauto|].
  unfold add_dep.
  destruct (g !! dep.2); [|by right].
  destruct (g !! dep.1); [|by right]. apply IH.
Qed.

Section Main.
Context {Server : Type} (jenkins : Jenkins Server).

(** C9: when a start point is given and a dependency edge or the start point
    names an alias that the mapping does not declare, [main] raises
    [AttributeError] out of graph construction or layering, and leaves the
    world as it found it: no request has been sent to the server and nothing
    has been printed. *)
Theorem main_undeclared_alias fuel config start exclude_aliases ignore_failed w :
  start ≠ ""%string →
  (∃ e, e ∈ dependencies config ∧
        (e.1 ∉ dom (aliases config) ∨ e.2 ∉ dom (aliases config))) ∨
  start ∉ dom (aliases config) →
  main jenkins fuel config (Some start) exclude_aliases ignore_failed w
  = (w, Raise AttributeError).
Proof.
  intros Hstart Hbad. unfold main.
  destruct start as [|a start']; [done|].
  destruct (add_deps_outcome (dependencies config) (init_nodes (aliases config)))
    as [[g Hg]|Hg]; fold (build_graph (aliases config) (dependencies config)) in Hg;
    rewrite Hg; [|done].
  destruct Hbad as [(e & He & Hbad)|Hbad].
  - by rewrite (build_graph_Raise _ _ e He Hbad) in Hg.
  - rewrite (built_graph_get _ _ _ Hg), decide_False by done. done.
Qed.

End Main.

Lemma main_undeclared_alias_witness :
  "A"%string ≠ ""%string ∧
  ((∃ e, e ∈ dependencies (mkConfig scenario_aliases [("B", "Z")]%string) ∧
         (e.1 ∉ dom (aliases (mkConfig scenario_aliases [("B", "Z")]%string)) ∨
          e.2 ∉ dom (aliases (mkConfig scenario_aliases [("B", "Z")]%string)))) ∨
   "A"%string ∉ dom (aliases (mkConfig scenario_aliases [("B", "Z")]%string))) ∧
  main all_succeed 3 (mkConfig scenario_aliases [("B", "Z")]%string) (Some "A"%string)
       [] false world0
  = (world0, Raise AttributeError).
Proof.
  assert ("A"%string ≠ ""%string) as H1 by done.
  assert ((∃ e, e ∈ dependencies (mkConfig scenario_aliases [("B", "Z")]%string) ∧
         (e.1 ∉ dom (aliases (mkConfig scenario_aliases [("B", "Z")]%string)) ∨
          e.2 ∉ dom (aliases (mkConfig scenario_aliases [("B", "Z")]%string)))) ∨
   "A"%string ∉ dom (aliases (mkConfig scenario_aliases [("B", "Z")]%string))) as H2.
  { left. exists ("B", "Z")%string. split; [by left|]. right. by_compute. }
  split; [exact H1|]. split; [exact H2|].
  exact (main_undeclared_alias all_succeed 3
           (mkConfig scenario_aliases [("B", "Z")]%string) "A" [] false world0 H1 H2).
Defined.

(** * Further properties of the code *)

(** ** Graph construction *)

(** X1: [build_graph] returns a graph exactly when every edge joins declared
    aliases, and raises [AttributeError] exactly when some edge does not. *)
Theorem build_graph_outcome aliases deps :
  (well_formed aliases deps ↔ ∃ g, build_graph aliases deps = Ok g) ∧
  (¬ well_formed aliases deps ↔ build_graph aliases deps = Raise AttributeError).
Proof.
  split; split.
  - apply build_graph_Ok.
  - intros [g Hg]. by apply (build_graph_well_formed _ _ g).
  - intros Hnot.
    destruct (add_deps_outcome deps (init_nodes aliases)) as [[g Hg]|Hg]; [|done].
    destruct Hnot. by apply (build_graph_well_formed _ _ g).
  - intros Hraise Hwf. destruct (build_graph_Ok _ _ Hwf) as [g Hg]. congruence.
Qed.

(** X2: in the graph that [build_graph] returns there is one node per
    declared alias and none for any other name; the node of an alias carries
    its name, counts the edges in which it is the dependent (repeated edges
    included) and lists its dependents in the order of the edge list. *)
Theorem build_graph_nodes aliases deps :
  well_formed aliases deps →
  ∃ g, build_graph aliases deps = Ok g ∧
       dom g = dom aliases ∧
       ∀ a, a ∈ dom aliases →
         g !! a = Some (mkNode a (Z.of_nat (length (filter (λ e, e.1 = a) deps)))
                               ((filter (λ e, e.2 = a) deps).*1)).
Proof.
  intros Hwf. destruct (build_graph_Ok _ _ Hwf) as [g Hg]. exists g.
  split; [done|]. split; [by apply (build_graph_dom _ deps)|].
  intros a Ha. rewrite (build_graph_lookup _ _ _ a Hg), decide_True by done.
  unfold prerequisites, dependents. by rewrite length_fmap.
Qed.

Lemma build_graph_nodes_witness :
  well_formed scenario_aliases scenario_deps ∧
  ∃ g, build_graph scenario_aliases scenario_deps = Ok g ∧
       dom g = dom scenario_aliases ∧
       ∀ a, a ∈ dom scenario_aliases →
         g !! a = Some (mkNode a
                          (Z.of_nat (length (filter (λ e, e.1 = a) scenario_deps)))
                          ((filter (λ e, e.2 = a) scenario_deps).*1)).
Proof.
  split; [exact scenario_well_formed|].
  exact (build_graph_nodes scenario_aliases scenario_deps scenario_well_formed).
Defined.

(** ** Shape of the phase list *)

Lemma layered_nonempty inb0 ch0 E q R :
  layered inb0 ch0 E q R → Forall (λ L, L ≠ []) R.
Proof. induction 1; by constructor. Qed.

Lemma length_join_nonempty (Ls : list (list string)) :
  Forall (λ L, L ≠ []) Ls → (length Ls ≤ length (mjoin Ls))%nat.
Proof.
  induction 1 as [|L Ls HL _ IH]; [done|]. simpl. rewrite length_app.
  destruct L; [done|]. simpl. lia.
Qed.

Lemma sum_list_length_join (Ls : list (list string)) :
  sum_list (length <$> Ls) = length (mjoin Ls).
Proof.
  induction Ls as [|L Ls IH]; [done|]. rewrite fmap_cons. simpl.
  by rewrite length_app, IH.
Qed.

(** After the start, a plan emits every node at most once. *)
Lemma plan_tail_NoDup deps s R :
  plan deps s R → ∃ rest, R = [s] :: rest ∧ NoDup (mjoin rest).
Proof.
  unfold plan. inversion 1 as [|E q q' rest Hne Hq' Hlay]; subst.
  exists rest. split; [done|]. apply NoDup_count. intros v.
  pose proof (layered_count _ _ _ _ _ v Hlay) as Hc.
  rewrite Hq' in Hc. unfold crossed in Hc. repeat case_decide; lia.
Qed.

(** X3: layering is breadth first.  Every alias in phase [i + 1] is a
    dependent of some alias in phase [i], and every alias in a phase is
    declared and reachable from the start along the edges. *)
Theorem topo_sort_breadth_first aliases deps s :
  well_formed aliases deps → s ∈ dom aliases →
  ∃ g layers,
    build_graph aliases deps = Ok g ∧
    get_topo_sort g (graph_get g s) = Ok layers ∧
    (∀ v i, in_phase layers v i → reachable deps s v ∧ v ∈ dom aliases) ∧
    (∀ v i, in_phase layers v (S i) → ∃ u, in_phase layers u i ∧ (v, u) ∈ deps).
Proof.
  intros Hwf Hs.
  destruct (built_plan aliases deps s Hwf Hs) as (g & R & Hg & HR & _ & Hplan).
  exists g, R. split_and!; [done..| |].
  - intros v i Hin. destruct (plan_reachable deps s R Hplan i v Hin) as [Hv _].
    split; [done|]. by apply (reachable_declared aliases deps s).
  - intros v i (L & HL & Hv).
    destruct (layered_parent _ _ _ _ _ Hplan i L v HL Hv) as (L' & u & HL' & Hu & Hvu).
    exists u. split; [by exists L'|]. by apply elem_of_dependents in Hvu.
Qed.

Lemma topo_sort_breadth_first_witness :
  well_formed scenario_aliases scenario_deps ∧
  "A" ∈ dom scenario_aliases ∧
  ∃ g layers,
    build_graph scenario_aliases scenario_deps = Ok g ∧
    get_topo_sort g (graph_get g "A") = Ok layers ∧
    (∀ v i, in_phase layers v i →
       reachable scenario_deps "A" v ∧ v ∈ dom scenario_aliases) ∧
    (∀ v i, in_phase layers v (S i) →
       ∃ u, in_phase layers u i ∧ (v, u) ∈ scenario_deps).
Proof.
  assert ("A" ∈ dom scenario_aliases) as Hs by by_compute.
  split; [exact scenario_well_formed|]. split; [exact Hs|].
  exact (topo_sort_breadth_first scenario_aliases scenario_deps "A"
           scenario_well_formed Hs).
Defined.

(** X4: no phase is empty, and the phase list holds at most one entry more
    than there are declared aliases: both the number of phases and the total
    number of jobs that [main] prints are bounded by that. *)
Theorem topo_sort_size aliases deps s :
  well_formed aliases deps → s ∈ dom aliases →
  ∃ g layers,
    build_graph aliases deps = Ok g ∧
    get_topo_sort g (graph_get g s) = Ok layers ∧
    Forall (λ L, L ≠ []) layers ∧
    (1 ≤ length layers ≤ sum_list (length <$> layers))%nat ∧
    (sum_list (length <$> layers) ≤ size aliases + 1)%nat.
Proof.
  intros Hwf Hs.
  destruct (built_plan aliases deps s Hwf Hs) as (g & R & Hg & HR & _ & Hplan).
  exists g, R.
  assert (Forall (λ L, L ≠ []) R) as Hne by apply (layered_nonempty _ _ _ _ _ Hplan).
  split_and!; [done..| | |].
  - pose proof (plan_first deps s R Hplan) as H0. apply lookup_lt_Some in H0. lia.
  - rewrite sum_list_length_join. by apply length_join_nonempty.
  - rewrite sum_list_length_join.
    destruct (plan_tail_NoDup deps s R Hplan) as (rest & HRrest & Hnd).
    assert (length (mjoin rest) ≤ size aliases)%nat as Hle.
    { rewrite <- (size_dom (D := gset string) aliases).
      apply submseteq_length, NoDup_submseteq; [done|].
      intros v [i (L & HL & Hv)]%elem_in_phase. apply elem_of_elements.
      apply (reachable_declared aliases deps s v Hwf Hs).
      apply (plan_reachable deps s R Hplan (S i) v).
      exists L. by rewrite HRrest. }
    rewrite HRrest. simpl. lia.
Qed.

Lemma topo_sort_size_witness :
  well_formed mutual_aliases mutual_deps ∧
  "A" ∈ dom mutual_aliases ∧
  ∃ g layers,
    build_graph mutual_aliases mutual_deps = Ok g ∧
    get_topo_sort g (graph_get g "A") = Ok layers ∧
    Forall (λ L, L ≠ []) layers ∧
    (1 ≤ length layers ≤ sum_list (length <$> layers))%nat ∧
    (sum_list (length <$> layers) ≤ size mutual_aliases + 1)%nat.
Proof.
  assert ("A" ∈ dom mutual_aliases) as Hs by by_compute.
  split; [exact mutual_well_formed|]. split; [exact Hs|].
  exact (topo_sort_size mutual_aliases mutual_deps "A" mutual_well_formed Hs).
Defined.

(** ** Exclusion: errors and composition with the scheduler *)

Lemma remove_excluded_outcome exclude_aliases nodes : ∀ (X : gset string),
  (remove_excluded nodes exclude_aliases X = Raise KeyError ↔
     ∃ v, v ∈ exclude_aliases ∧
          ((v ∈ nodes ∧ v ∉ X) ∨ (2 ≤ count v nodes)%nat)) ∧
  (remove_excluded nodes exclude_aliases X = Raise KeyError ∨
   ∃ Y, remove_excluded nodes exclude_aliases X = Ok Y).
Proof.
  induction nodes as [|node rest IH]; intros X; simpl.
  - split; [|by eauto]. split; [done|].
    intros (v & _ & [[Hv _]|Hc]); [by apply elem_of_nil in Hv|].
    rewrite count_nil in Hc. lia.
  - destruct (decide (node ∈ exclude_aliases)) as [Hex|Hex].
    + destruct (decide (node ∈ X)) as [HX|HX].
      * destruct (IH (X ∖ {[node]})) as [IH1 IH2]. split; [|done].
        rewrite IH1. split.
        -- intros (v & Hv & [[Hin Hout]|Hc]); exists v; (split; [done|]).
           ++ destruct (decide (v = node)) as [->|Hne].
              ** right. apply count_pos in Hin. rewrite count_cons, decide_True by done. lia.
              ** left. split; [by right|]. intros HvX. apply Hout.
                 apply elem_of_difference. by rewrite elem_of_singleton.
           ++ right. rewrite count_cons. lia.
        -- intros (v & Hv & [[Hin Hout]|Hc]); exists v; (split; [done|]).
           ++ apply elem_of_cons in Hin as [->|Hin]; [done|].
              left. split; [done|]. intros [? _]%elem_of_difference. done.
           ++ rewrite count_cons in Hc. destruct (decide (node = v)) as [->|Hne].
              ** left. split; [apply count_pos; lia|].
                 intros [_ Hn]%elem_of_difference. apply Hn. by apply elem_of_singleton.
              ** right. lia.
      * split; [|by left]. split; [|done]. intros _. exists node.
        split; [done|]. left. split; [by left | done].
    + destruct (IH X) as [IH1 IH2]. split; [|done]. rewrite IH1.
      split; intros (v & Hv & Hcase); exists v; (split; [done|]);
        assert (node ≠ v) by (by intros ->);
        rewrite elem_of_cons, count_cons, decide_False in * by done;
        destruct Hcase as [[Hin Hout]|Hc]; [left|right|left|right]; try done.
      * split; [by right | done].
      * destruct Hin as [?|?]; [congruence|done].
Qed.

Lemma filter_excluded_nodes_outcome exclude_aliases phases :
  (filter_excluded_nodes phases exclude_aliases = Raise KeyError ↔
     ∃ L v, L ∈ phases ∧ v ∈ exclude_aliases ∧ (2 ≤ count v L)%nat) ∧
  (filter_excluded_nodes phases exclude_aliases = Raise KeyError ∨
   ∃ result, filter_excluded_nodes phases exclude_aliases = Ok result).
Proof.
  induction phases as [|nodes rest [IH1 IH2]]; cbn [filter_excluded_nodes].
  - split; [|by eauto]. split; [done|]. by intros (L & v & ?%elem_of_nil & _).
  - destruct (remove_excluded_outcome exclude_aliases nodes (list_to_set nodes))
      as [Hr1 Hr2].
    assert (remove_excluded nodes exclude_aliases (list_to_set nodes) = Raise KeyError
            ↔ ∃ v, v ∈ exclude_aliases ∧ (2 ≤ count v nodes)%nat) as Hr.
    { rewrite Hr1. split; intros (v & Hv & Hcase); exists v; (split; [done|]).
      - destruct Hcase as [[Hin Hout]|?]; [|done].
        destruct Hout. by apply elem_of_list_to_set.
      - by right. }
    destruct Hr2 as [Hraise|[Y HY]].
    + rewrite Hraise. split; [|by left]. split; [|done]. intros _.
      apply Hr in Hraise as (v & Hv & Hc). exists nodes, v. split; [by left | done].
    + rewrite HY. destruct IH2 as [Hrest|[result Hrest]]; rewrite Hrest.
      * split; [|by left]. split; [|done]. intros _.
        apply IH1 in Hrest as (L & v & HL & Hv). exists L, v. split; [by right|done].
      * split; [|by eauto]. split; [done|].
        intros (L & v & [->|HL]%elem_of_cons & Hv & Hc).
        -- assert (remove_excluded nodes exclude_aliases (list_to_set nodes)
                   = Raise KeyError) by (apply Hr; eauto). congruence.
        -- assert (filter_excluded_nodes rest exclude_aliases = Raise KeyError)
             by (apply IH1; eauto). congruence.
Qed.

(** X5: [filter_excluded_nodes] raises [KeyError] exactly when some phase
    lists an excluded alias twice (the second [remove] finds it gone), and
    returns a phase list in every other case. *)
Theorem filter_excluded_nodes_KeyError phases exclude_aliases :
  (filter_excluded_nodes phases exclude_aliases = Raise KeyError ↔
     ∃ L v, L ∈ phases ∧ v ∈ exclude_aliases ∧ (2 ≤ count v L)%nat) ∧
  ((∃ result, filter_excluded_nodes phases exclude_aliases = Ok result) ↔
     ¬ ∃ L v, L ∈ phases ∧ v ∈ exclude_aliases ∧ (2 ≤ count v L)%nat).
Proof.
  destruct (filter_excluded_nodes_outcome exclude_aliases phases) as [H1 H2].
  split; [done|]. rewrite <- H1. split.
  - intros [result Hr]. congruence.
  - intros Hnot. destruct H2 as [?|?]; done.
Qed.

(** X6: on the phase list that the scheduler returns the exclusion filter
    never raises, whatever aliases are excluded; the phases it returns are
    not empty and there are no more of them than before. *)
Theorem schedule_filter_returns aliases deps s exclude_aliases :
  well_formed aliases deps → s ∈ dom aliases →
  ∃ layers result,
    schedule aliases deps s = Ok layers ∧
    filter_excluded_nodes layers exclude_aliases = Ok result ∧
    Forall (λ X, X ≠ ∅) result ∧
    (length result ≤ length layers)%nat.
Proof.
  intros Hwf Hs.
  destruct (built_plan aliases deps s Hwf Hs) as (g & R & Hg & HR & _ & Hplan).
  exists R, (filter (λ X, X ≠ ∅) (kept exclude_aliases <$> R)). split_and!.
  - unfold schedule. by rewrite Hg.
  - apply filter_excluded_nodes_spec, (plan_layers_NoDup deps s R Hplan).
  - apply Forall_forall. by intros X [? _]%list_elem_of_filter.
  - etrans; [apply length_filter|]. by rewrite length_fmap.
Qed.

Lemma schedule_filter_returns_witness :
  well_formed mutual_aliases mutual_deps ∧
  "A" ∈ dom mutual_aliases ∧
  ∃ layers result,
    schedule mutual_aliases mutual_deps "A" = Ok layers ∧
    filter_excluded_nodes layers ["A"]%string = Ok result ∧
    Forall (λ X, X ≠ ∅) result ∧
    (length result ≤ length layers)%nat.
Proof.
  assert ("A" ∈ dom mutual_aliases) as Hs by by_compute.
  split; [exact mutual_well_formed|]. split; [exact Hs|].
  exact (schedule_filter_returns mutual_aliases mutual_deps "A" ["A"]%string
           mutual_well_formed Hs).
Defined.

Lemma filter_all_excluded exclude_aliases (phases : list (list string)) :
  (∀ L v, L ∈ phases → v ∈ L → v ∈ exclude_aliases) →
  filter (λ X : gset string, X ≠ ∅) (kept exclude_aliases <$> phases) = [].
Proof.
  induction phases as [|L phases IH]; intros Hall; [done|].
  rewrite fmap_cons, filter_cons.
  assert (kept exclude_aliases L = ∅) as ->.
  { apply set_eq. intros v. rewrite elem_of_kept. split; [|by intros ?%not_elem_of_empty].
    intros [Hv Hex]. destruct Hex. apply (Hall L v); [by left | done]. }
  rewrite decide_False by (by intros ?). apply IH.
  intros L' v HL'. apply Hall. by right.
Qed.

Section MainExclusion.
Context {Server : Type} (jenkins : Jenkins Server).

(** X7: when the configuration is well formed, the start point is declared
    and every declared alias is excluded, [main] prints that no job is built
    and returns; it sends no request to the server. *)
Theorem main_all_excluded fuel config start exclude_aliases ignore_failed w :
  start ≠ ""%string →
  well_formed (aliases config) (dependencies config) →
  start ∈ dom (aliases config) →
  (∀ a, a ∈ dom (aliases config) → a ∈ exclude_aliases) →
  main jenkins fuel config (Some start) exclude_aliases ignore_failed w
  = (print PrintNoJobBuilt w, Ok Returned) ∧
  calls (print PrintNoJobBuilt w) = calls w.
Proof.
  intros Hstart Hwf Hs Hall. split; [|done].
  destruct (built_plan _ _ start Hwf Hs) as (g & R & Hg & HR & _ & Hplan).
  unfold main. destruct start as [|c start']; [done|].
  rewrite Hg, HR.
  destruct exclude_aliases as [|x excl]; [by apply Hall, elem_of_nil in Hs|].
  rewrite (filter_excluded_nodes_spec _ R (plan_layers_NoDup _ _ R Hplan)).
  rewrite filter_all_excluded; [done|].
  intros L v [i HL]%list_elem_of_lookup_1 Hv. apply Hall.
  apply (reachable_declared _ (dependencies config) (String c start') v Hwf Hs).
  apply (plan_reachable _ _ R Hplan i v). by exists L.
Qed.

End MainExclusion.

Lemma main_all_excluded_witness :
  "A"%string ≠ ""%string ∧
  well_formed (aliases (mkConfig scenario_aliases scenario_deps))
              (dependencies (mkConfig scenario_aliases scenario_deps)) ∧
  "A" ∈ dom (aliases (mkConfig scenario_aliases scenario_deps)) ∧
  (∀ a, a ∈ dom (aliases (mkConfig scenario_aliases scenario_deps)) →
        a ∈ ["C"; "A"; "B"]%string) ∧
  main all_succeed 3 (mkConfig scenario_aliases scenario_deps) (Some "A"%string)
       ["C"; "A"; "B"]%string false world0
  = (print PrintNoJobBuilt world0, Ok Returned) ∧
  calls (print PrintNoJobBuilt world0) = calls world0.
Proof.
  assert ("A"%string ≠ ""%string) as H1 by done.
  assert ("A" ∈ dom scenario_aliases) as H3 by by_compute.
  assert (∀ a, a ∈ dom scenario_aliases → a ∈ ["C"; "A"; "B"]%string) as H4.
  { intros a Ha. apply elem_of_elements in Ha. revert Ha.
    assert (elements (dom scenario_aliases) = ["C"; "A"; "B"]%string) as ->
      by (vm_compute; reflexivity).
    done. }
  split; [exact H1|]. split; [exact scenario_well_formed|].
  split; [exact H3|]. split; [exact H4|].
  exact (main_all_excluded all_succeed 3 (mkConfig scenario_aliases scenario_deps)
           "A" ["C"; "A"; "B"]%string false world0 H1 scenario_well_formed H3 H4).
Defined.

(** ** Starting a phase *)

Section PhaseStart.
Context {Server : Type} (jenkins : Jenkins Server).

(** X8: when [init_build_items] returns, there is one record per node, in
    order, for the job that the mapping gives the node; every record is
    INITIATED with stage "?" and duration 0, and the requests sent are one
    [get_job_info] per record, in the same order. *)
Theorem init_build_items_records nodes aliases : ∀ w w' items,
  init_build_items jenkins nodes aliases w = (w', Ok items) →
  Some <$> (job_name <$> items) = (λ node, aliases !! node) <$> nodes ∧
  Forall (λ item, status item = "INITIATED"%string ∧ stage item = "?"%string ∧
                  duration item = 0%Qc) items ∧
  calls w' = calls w ++ (CallGetJobInfo <$> (job_name <$> items)) ∧
  stdout w' = stdout w.
Proof.
  induction nodes as [|node rest IH]; intros w w' items; simpl.
  - intros [= <- <-]. by rewrite app_nil_r.
  - destruct (aliases !! node) as [job|] eqn:Hjob; [|done].
    unfold get_next_build_num.
    destruct (get_job_info_nextBuildNumber jenkins job (server w)) as [s1 [num|e]];
      simpl; [|done].
    match goal with |- context [init_build_items jenkins rest aliases ?w1] =>
      destruct (init_build_items jenkins rest aliases w1)
        as [w2 [items1| |]] eqn:Hrest end; [|done..].
    intros [= <- <-].
    destruct (IH _ _ _ Hrest) as (Hjobs & Hall & Hcalls & Hout). simpl in *.
    split_and!.
    + f_equal. exact Hjobs.
    + by constructor.
    + rewrite Hcalls, <- app_assoc. reflexivity.
    + done.
Qed.

Lemma init_build_items_calls nodes aliases : ∀ w,
  (init_build_items jenkins nodes aliases w).2 ≠ OutOfFuel ∧
  ∃ jobs, calls (init_build_items jenkins nodes aliases w).1
          = calls w ++ (CallGetJobInfo <$> jobs).
Proof.
  induction nodes as [|node rest IH]; intros w; simpl.
  - split; [done|]. exists []. by rewrite app_nil_r.
  - destruct (aliases !! node) as [job|]; [|split; [done|exists []; by rewrite app_nil_r]].
    unfold get_next_build_num.
    destruct (get_job_info_nextBuildNumber jenkins job (server w)) as [s1 [num|e]];
      simpl; [|split; [done|by exists [job]]].
    match goal with |- context [init_build_items jenkins rest aliases ?w1] =>
      destruct (IH w1) as (Hfuel & jobs & Hcalls);
      destruct (init_build_items jenkins rest aliases w1) as [w2 [items1| |]] end;
      simpl in *; (split; [done|]); exists (job :: jobs);
      by rewrite Hcalls, <- app_assoc.
Qed.

Lemma init_build_items_missing nodes aliases node :
  node ∈ nodes → aliases !! node = None →
  ∀ w items, (init_build_items jenkins nodes aliases w).2 ≠ Ok items.
Proof.
  induction nodes as [|node' rest IH]; intros Hin Hnone w items; simpl.
  { by apply elem_of_nil in Hin. }
  destruct (aliases !! node') as [job|] eqn:Hjob; [|done].
  apply elem_of_cons in Hin as [->|Hin]; [congruence|].
  destruct (get_next_build_num jenkins job w) as [w1 [num|e|]]; [|done..].
  pose proof (IH Hin Hnone w1) as Hrest.
  destruct (init_build_items jenkins rest aliases w1) as [w2 [items1| |]];
    simpl in *; [|done..].
  by destruct (Hrest items1).
Qed.

(** X9: when a node of the phase has no entry in the alias mapping,
    [build_phase] raises, and no build is triggered: the only requests it has
    sent are [get_job_info] lookups. *)
Theorem build_phase_missing_alias fuel nodes aliases ignore_failed node w :
  node ∈ nodes → aliases !! node = None →
  ∃ w1 e jobs,
    build_phase jenkins fuel nodes aliases ignore_failed w = (w1, Raise e) ∧
    calls w1 = calls w ++ (CallGetJobInfo <$> jobs) ∧
    stdout w1 = stdout w.
Proof.
  intros Hin Hnone. unfold build_phase.
  destruct (init_build_items_calls nodes aliases w) as (Hfuel & jobs & Hcalls).
  pose proof (init_build_items_missing nodes aliases node Hin Hnone w) as Hmiss.
  pose proof (init_build_items_stdout jenkins nodes aliases w) as Hout.
  destruct (init_build_items jenkins nodes aliases w) as [w1 [items|e|]];
    simpl in *; [by destruct (Hmiss items)| |done].
  by exists w1, e, jobs.
Qed.

End PhaseStart.

Lemma init_build_items_records_witness :
  let w' := (init_build_items all_succeed ["A"; "B"]%string scenario_aliases world0).1 in
  let items := [fresh_item "job-a"; fresh_item "job-b"] in
  init_build_items all_succeed ["A"; "B"]%string scenario_aliases world0
  = (w', Ok items) ∧
  Some <$> (job_name <$> items)
  = (λ node, scenario_aliases !! node) <$> ["A"; "B"]%string ∧
  Forall (λ item, status item = "INITIATED"%string ∧ stage item = "?"%string ∧
                  duration item = 0%Qc) items ∧
  calls w' = calls world0 ++ (CallGetJobInfo <$> (job_name <$> items)) ∧
  stdout w' = stdout world0.
Proof.
  intros w' items.
  assert (init_build_items all_succeed ["A"; "B"]%string scenario_aliases world0
          = (w', Ok items)) as H by (vm_compute; reflexivity).
  split; [exact H|].
  exact (init_build_items_records all_succeed ["A"; "B"]%string scenario_aliases
           world0 w' items H).
Defined.

Lemma build_phase_missing_alias_witness :
  "Z"%string ∈ ["A"; "Z"]%string ∧
  scenario_aliases !! "Z"%string = None ∧
  ∃ w1 e jobs,
    build_phase all_succeed 3 ["A"; "Z"]%string scenario_aliases false world0
    = (w1, Raise e) ∧
    calls w1 = calls world0 ++ (CallGetJobInfo <$> jobs) ∧
    stdout w1 = stdout world0.
Proof.
  assert ("Z"%string ∈ ["A"; "Z"]%string) as H1 by by_compute.
  assert (scenario_aliases !! "Z"%string = None) as H2 by (vm_compute; reflexivity).
  split; [exact H1|]. split; [exact H2|].
  exact (build_phase_missing_alias all_succeed 3 ["A"; "Z"]%string scenario_aliases
           false "Z" world0 H1 H2).
Defined.

(** ** Status lookups *)

Section Lookups.
Context {Server : Type} (jenkins : Jenkins Server).

Lemma fetch_stage_info_calls tries item : ∀ w,
  ∃ n, (n ≤ tries)%nat ∧ ((1 ≤ tries)%nat → (1 ≤ n)%nat) ∧
       calls (fetch_stage_info jenkins tries item w).1
       = calls w ++ replicate n (CallGetBuildStages (job_name item) (build_num item)).
Proof.
  induction tries as [|tries IH]; intros w; simpl.
  - exists 0%nat. split_and!; [lia..|]. by rewrite app_nil_r.
  - unfold get_build_stages.
    destruct (jenkins_get_build_stages jenkins _ _ _) as [s1 [[info|]|e]]; simpl.
    + exists 1%nat. split_and!; [lia..|done].
    + match goal with |- context [fetch_stage_info jenkins tries item ?w1] =>
        destruct (IH w1) as (n & Hn & _ & Hcalls) end.
      exists (S n). split_and!; [lia..|]. rewrite Hcalls. simpl.
      by rewrite <- app_assoc.
    + exists 1%nat. split_and!; [lia..|done].
Qed.

(** X11: one call of [get_build_stage_info] sends between 1 and 20 status
    requests, all for the job and build number of the record, prints nothing
    and always comes back. *)
Theorem get_build_stage_info_requests item w :
  ∃ n, (1 ≤ n ≤ RETRIES_COUNT_GET_BUILD_STAGE)%nat ∧
       calls (get_build_stage_info jenkins item w).1
       = calls w ++ replicate n (CallGetBuildStages (job_name item) (build_num item)) ∧
       stdout (get_build_stage_info jenkins item w).1 = stdout w ∧
       (get_build_stage_info jenkins item w).2 ≠ OutOfFuel.
Proof.
  destruct (fetch_stage_info_calls RETRIES_COUNT_GET_BUILD_STAGE item w)
    as (n & Hn & Hpos & Hcalls).
  pose proof (fetch_stage_info_stdout jenkins RETRIES_COUNT_GET_BUILD_STAGE item w) as Hout.
  pose proof (get_build_stage_info_returns jenkins item w) as Hret.
  exists n. split; [split; [apply Hpos; unfold RETRIES_COUNT_GET_BUILD_STAGE; lia | done]|].
  split_and!; [| |done]; unfold get_build_stage_info;
    by destruct (fetch_stage_info _ _ _ _) as [w1 [[info|]|e|]].
Qed.

Lemma fetch_after_absent item n w w1 :
  absent_run jenkins item n w w1 →
  ∀ m, fetch_stage_info jenkins (n + m) item w = fetch_stage_info jenkins m item w1.
Proof.
  induction 1 as [w|n w wa wb Hget _ IH]; intros m; [done|].
  simpl. rewrite Hget. apply IH.
Qed.

(** X12: [get_build_stage_info] stops at the first answer that is not empty.
    After fewer than 20 empty answers, data that the server returns is what
    the function returns, and an error of the client is raised at once, not
    retried. *)
Theorem get_build_stage_info_first_answer item n w w1 w2 :
  absent_run jenkins item n w w1 →
  (n < RETRIES_COUNT_GET_BUILD_STAGE)%nat →
  (∀ info, get_build_stages jenkins item w1 = (w2, Ok (Some info)) →
           get_build_stage_info jenkins item w = (w2, Ok info)) ∧
  (∀ e, get_build_stages jenkins item w1 = (w2, Raise e) →
        get_build_stage_info jenkins item w = (w2, Raise e)).
Proof.
  intros Habsent Hn.
  assert (∃ m, RETRIES_COUNT_GET_BUILD_STAGE = (n + S m)%nat) as [m Hm].
  { exists (RETRIES_COUNT_GET_BUILD_STAGE - S n)%nat. lia. }
  split; intros x Hget; unfold get_build_stage_info;
    rewrite Hm, (fetch_after_absent item n w w1 Habsent (S m)); simpl;
    by rewrite Hget.
Qed.

Lemma poll_item_record item w w' item' :
  poll_item jenkins item w = (w', Ok item') →
  job_name item' = job_name item ∧ build_num item' = build_num item ∧
  (is_terminal (status item) = true → item' = item ∧ w' = w).
Proof.
  unfold poll_item. destruct (is_terminal (status item)).
  - by intros [= <- <-].
  - destruct (get_build_stage_info jenkins item w) as [w1 [info|e|]]; [| |done];
      by intros [= <- <-].
Qed.

(** X13: a polling tick keeps the records: the same jobs with the same build
    numbers in the same order, and a record that was in a terminal status
    (FAILED, ABORTED or SUCCESS) before the tick is unchanged after it. *)
Theorem poll_tick_records items : ∀ w w' items',
  poll_tick jenkins items w = (w', Ok items') →
  job_name <$> items' = job_name <$> items ∧
  build_num <$> items' = build_num <$> items ∧
  ∀ i item, items !! i = Some item → is_terminal (status item) = true →
            items' !! i = Some item.
Proof.
  induction items as [|item rest IH]; intros w w' items'; simpl.
  - by intros [= <- <-].
  - destruct (poll_item jenkins item w) as [w1 [item1| |]] eqn:Hitem; [|done..].
    destruct (poll_tick jenkins rest w1) as [w2 [rest1| |]] eqn:Hrest; [|done..].
    intros [= <- <-].
    destruct (poll_item_record _ _ _ _ Hitem) as (Hj & Hb & Hterm).
    destruct (IH _ _ _ Hrest) as (Hjs & Hbs & Hts).
    rewrite !fmap_cons, Hj, Hb, Hjs, Hbs. split_and!; [done..|].
    intros [|i] it; simpl.
    + intros [= <-] Ht. by destruct (Hterm Ht) as [-> _].
    + apply Hts.
Qed.

End Lookups.

Lemma get_build_stage_info_first_answer_witness :
  let item := fresh_item "job-a" in
  let w := mkWorld 0%nat [] [] in
  let w1 := (fetch_stage_info (slow_start 2) 2 item w).1 in
  let w2 := (get_build_stages (slow_start 2) item w1).1 in
  absent_run (slow_start 2) item 2 w w1 ∧
  (2 < RETRIES_COUNT_GET_BUILD_STAGE)%nat ∧
  (∀ info, get_build_stages (slow_start 2) item w1 = (w2, Ok (Some info)) →
           get_build_stage_info (slow_start 2) item w = (w2, Ok info)) ∧
  (∀ e, get_build_stages (slow_start 2) item w1 = (w2, Raise e) →
        get_build_stage_info (slow_start 2) item w = (w2, Raise e)).
Proof.
  intros item w w1 w2.
  assert (absent_run (slow_start 2) item 2 w w1) as H1.
  { apply fetch_stage_info_absent. vm_compute. reflexivity. }
  assert (2 < RETRIES_COUNT_GET_BUILD_STAGE)%nat as H2
    by (unfold RETRIES_COUNT_GET_BUILD_STAGE; lia).
  split; [exact H1|]. split; [exact H2|].
  exact (get_build_stage_info_first_answer (slow_start 2) item 2 w w1 w2 H1 H2).
Defined.

(** The data arrives with the third request of the witness. *)
Example slow_start_third_request :
  get_build_stage_info (slow_start 2) (fresh_item "job-a") (mkWorld 0%nat [] [])
  = (mkWorld 3%nat (replicate 3 (CallGetBuildStages "job-a" 1)) [],
     Ok (mkStageInfo "SUCCESS" 1500 (Some ["build"; "test"]%string))).
Proof. vm_compute. reflexivity. Qed.

Lemma poll_tick_records_witness :
  let items := [set_status "ABORTED" (fresh_item "job-a"); fresh_item "job-b"] in
  let w' := (poll_tick all_succeed items world0).1 in
  let items' := [set_status "ABORTED" (fresh_item "job-a");
                 update_build_item_from_stage_info (fresh_item "job-b")
                   (mkStageInfo "SUCCESS" 0 None)] in
  poll_tick all_succeed items world0 = (w', Ok items') ∧
  job_name <$> items' = job_name <$> items ∧
  build_num <$> items' = build_num <$> items ∧
  ∀ i item, items !! i = Some item → is_terminal (status item) = true →
            items' !! i = Some item.
Proof.
  intros items w' items'.
  assert (poll_tick all_succeed items world0 = (w', Ok items')) as H
    by (vm_compute; reflexivity).
  split; [exact H|].
  exact (poll_tick_records all_succeed items world0 w' items' H).
Defined.

(** ** How a phase ends *)

Section PhaseEnd.
Context {Server : Type} (jenkins : Jenkins Server).

(** X14: [build_phase] on an empty list of nodes never returns: there is no
    status to aggregate, so the verdict is IN_PROGRESS at every tick, and no
    request is ever sent. *)
Theorem build_phase_empty_never_returns fuel aliases ignore_failed w :
  build_phase jenkins fuel [] aliases ignore_failed w = (w, OutOfFuel).
Proof.
  rewrite (build_phase_stuck jenkins [] aliases ignore_failed w w w [] []);
    [by destruct fuel | first [done | by destruct ignore_failed] ..].
Qed.

(** X15: [build_phase] fails fast.  When the first tick leaves a record in
    status FAILED, the phase ends with that tick, whatever the other records
    are doing: it returns FAILED, or IN_PROGRESS when failures are ignored. *)
Theorem build_phase_fail_fast fuel nodes aliases ignore_failed w w1 w2 items items' :
  init_build_items jenkins nodes aliases w = (w1, Ok items) →
  poll_tick jenkins items (submit_build_and_wait jenkins items w1) = (w2, Ok items') →
  "FAILED"%string ∈ status <$> items' →
  build_phase jenkins (S fuel) nodes aliases ignore_failed w
  = (w2, Ok (if ignore_failed then IN_PROGRESS else FAILED)).
Proof.
  intros Hinit Htick Hfailed. unfold build_phase.
  rewrite Hinit, poll_loop_S, Htick.
  assert (resolve_statuses (status <$> items') ignore_failed = FAILED) as ->
    by (apply resolve_statuses_FAILED; by left).
  rewrite bool_decide_eq_true_2 by (by left).
  unfold phase_result. by destruct ignore_failed.
Qed.

Context (fuel : nat) (aliases : gmap string string).

Lemma run_phases_ignore_failed phases : ∀ k w w' r,
  run_phases jenkins fuel k phases aliases true w = (w', Ok r) →
  r = SUCCESS ∧
  stdout w' = stdout w ++ (PrintBuildPhase <$> seq (k + 1) (length phases)).
Proof.
  induction phases as [|nodes rest IH]; intros k w w' r; cbn [run_phases].
  - intros [= <- <-]. simpl. by rewrite app_nil_r.
  - pose proof (build_phase_stdout jenkins fuel nodes aliases true
                  (print (PrintBuildPhase (k + 1)) w)) as Hout.
    destruct (build_phase jenkins fuel nodes aliases true _)
      as [w1 [verdict| |]] eqn:Hphase; [|done..].
    rewrite (build_phase_ignore_failed jenkins _ _ _ _ _ _ Hphase).
    rewrite bool_decide_eq_false_2 by done.
    intros (-> & Hrest)%IH. split; [done|].
    rewrite Hrest. simpl in Hout. rewrite Hout. simpl.
    by rewrite <- app_assoc, Nat.add_1_r.
Qed.

(** X16: with ignore-failed set, whenever the driver comes to its end it has
    started every phase, in order, and the final status it prints is SUCCESS,
    also when jobs have failed. *)
Theorem drive_ignore_failed phases w w' r :
  drive jenkins fuel phases aliases true w = (w', Ok r) →
  r = SUCCESS ∧
  stdout w' = stdout w ++ (PrintBuildPhase <$> seq 1 (length phases))
                       ++ [PrintFinalStatus SUCCESS].
Proof.
  unfold drive.
  destruct (run_phases jenkins fuel 0 phases aliases true w)
    as [w1 [final| |]] eqn:Hrun; [|done..].
  apply run_phases_ignore_failed in Hrun as [-> Hout].
  intros [= <- <-]. split; [done|]. simpl. by rewrite Hout, <- app_assoc.
Qed.

End PhaseEnd.

Lemma build_phase_fail_fast_witness :
  let nodes := ["A"; "B"]%string in
  let w1 := (init_build_items job_b_fails_early nodes scenario_aliases world0).1 in
  let items := [fresh_item "job-a"; fresh_item "job-b"] in
  let w2 := (poll_tick job_b_fails_early items
               (submit_build_and_wait job_b_fails_early items w1)).1 in
  let items' := [update_build_item_from_stage_info (fresh_item "job-a")
                   (mkStageInfo "IN_PROGRESS" 0 None);
                 update_build_item_from_stage_info (fresh_item "job-b")
                   (mkStageInfo "FAILED" 0 None)] in
  init_build_items job_b_fails_early nodes scenario_aliases world0 = (w1, Ok items) ∧
  poll_tick job_b_fails_early items
    (submit_build_and_wait job_b_fails_early items w1) = (w2, Ok items') ∧
  "FAILED"%string ∈ status <$> items' ∧
  build_phase job_b_fails_early (S 0) nodes scenario_aliases false world0
  = (w2, Ok (if false then IN_PROGRESS else FAILED)).
Proof.
  intros nodes w1 items w2 items'.
  assert (init_build_items job_b_fails_early nodes scenario_aliases world0
          = (w1, Ok items)) as H1 by (vm_compute; reflexivity).
  assert (poll_tick job_b_fails_early items
            (submit_build_and_wait job_b_fails_early items w1) = (w2, Ok items'))
    as H2 by (vm_compute; reflexivity).
  assert ("FAILED"%string ∈ status <$> items') as H3 by by_compute.
  split; [exact H1|]. split; [exact H2|]. split; [exact H3|].
  exact (build_phase_fail_fast job_b_fails_early 0 nodes scenario_aliases false
           world0 w1 w2 items items' H1 H2 H3).
Defined.

Lemma drive_ignore_failed_witness :
  let phases := [["A"]; ["B"]; ["C"]]%string in
  let w' := (drive job_b_fails 3 phases scenario_aliases true world0).1 in
  drive job_b_fails 3 phases scenario_aliases true world0 = (w', Ok SUCCESS) ∧
  SUCCESS = SUCCESS ∧
  stdout w' = stdout world0 ++ (PrintBuildPhase <$> seq 1 (length phases))
                            ++ [PrintFinalStatus SUCCESS].
Proof.
  intros phases w'.
  assert (drive job_b_fails 3 phases scenario_aliases true world0 = (w', Ok SUCCESS))
    as H by (vm_compute; reflexivity).
  split; [exact H|].
  exact (drive_ignore_failed job_b_fails 3 scenario_aliases phases world0 w' SUCCESS H).
Defined.

(** ** Configuration entries *)

Lemma foldl_insert_last (l1 l2 : list (string * string)) a j :
  a ∉ l2.*1 → ∀ m : gmap string string,
  foldl (λ aliases '(alias, job_name), <[alias := job_name]> aliases) m
        (l1 ++ (a, j) :: l2) !! a = Some j.
Proof.
  intros Hlast m. rewrite foldl_app. simpl.
  generalize (foldl (λ aliases '(alias, job_name), <[alias := job_name]> aliases) m l1).
  intros m1.
  assert (<[a := j]> m1 !! a = Some j) as Hm by apply lookup_insert_eq.
  revert Hm. generalize (<[a := j]> m1). clear m m1.
  induction l2 as [|[b k] l2 IH]; intros m Hm; [done|]. simpl.
  rewrite fmap_cons in Hlast. apply not_elem_of_cons in Hlast as [Hne Hlast].
  apply (IH Hlast). by rewrite lookup_insert_ne.
Qed.

Lemma foldl_insert_absent (l : list (string * string)) a :
  a ∉ l.*1 → ∀ m : gmap string string,
  foldl (λ aliases '(alias, job_name), <[alias := job_name]> aliases) m l !! a
  = m !! a.
Proof.
  induction l as [|[b k] l IH]; intros Habs m; [done|]. simpl.
  rewrite fmap_cons in Habs. apply not_elem_of_cons in Habs as [Hne Habs].
  rewrite (IH Habs). by rewrite lookup_insert_ne.
Qed.

Lemma foldl_foldl_join {A B} (f : A → B → A) (ls : list (list B)) : ∀ a,
  foldl (λ acc l, foldl f acc l) a ls = foldl f a (mjoin ls).
Proof.
  induction ls as [|l ls IH]; intros a; [done|]. simpl.
  by rewrite foldl_app, IH.
Qed.

(** X17: [process_aliases] maps an alias to the job name of its last entry in
    the document, knows no alias that has no entry, and gives the empty
    mapping when the document has no value under [aliases]. *)
Theorem process_aliases_lookup pairs a j l1 l2 :
  mjoin pairs = l1 ++ (a, j) :: l2 → a ∉ l2.*1 →
  process_aliases (Some pairs) !! a = Some j ∧
  (∀ b, b ∉ (mjoin pairs).*1 → process_aliases (Some pairs) !! b = None) ∧
  process_aliases None = ∅.
Proof.
  intros Hsplit Hlast. unfold process_aliases.
  rewrite (foldl_foldl_join
             (λ aliases '(alias, job_name), <[alias := job_name]> aliases)).
  split_and!; [|by intros b Hb; rewrite foldl_insert_absent|done].
  rewrite Hsplit. by apply foldl_insert_last.
Qed.

Lemma process_aliases_lookup_witness :
  let pairs := [[("A", "job-old")]; [("B", "job-b")]; [("A", "job-a")]]%string in
  mjoin pairs = [("A", "job-old"); ("B", "job-b")]%string ++ ("A", "job-a")%string :: [] ∧
  ("A"%string ∉ ([] : list (string * string)).*1) ∧
  process_aliases (Some pairs) !! "A"%string = Some "job-a"%string ∧
  (∀ b, b ∉ (mjoin pairs).*1 → process_aliases (Some pairs) !! b = None) ∧
  process_aliases None = ∅.
Proof.
  intros pairs.
  assert (mjoin pairs
          = [("A", "job-old"); ("B", "job-b")]%string ++ ("A", "job-a")%string :: [])
    as H1 by reflexivity.
  assert ("A"%string ∉ ([] : list (string * string)).*1) as H2 by apply not_elem_of_nil.
  split; [exact H1|]. split; [exact H2|].
  exact (process_aliases_lookup pairs "A" "job-a"
           [("A", "job-old"); ("B", "job-b")]%string [] H1 H2).
Defined.

Lemma foldl_snoc_pairs (l : list (string * string)) : ∀ acc,
  foldl (λ dependencies '(src_alias, dst_alias),
           dependencies ++ [(src_alias, dst_alias)]) acc l = acc ++ l.
Proof.
  induction l as [|[a b] l IH]; intros acc; simpl; [by rewrite app_nil_r|].
  by rewrite IH, <- app_assoc.
Qed.

(** X18: [process_dependencies] keeps every entry of the document, in the
    order of the document and with its repetitions, and the edges it returns
    are the ones [build_graph] counts: an alias starts with as many pending
    prerequisites as it has entries as a dependent. *)
Theorem process_dependencies_edges pairs aliases g a :
  build_graph aliases (process_dependencies (Some pairs)) = Ok g →
  a ∈ dom aliases →
  process_dependencies (Some pairs) = mjoin pairs ∧
  process_dependencies None = [] ∧
  inbound <$> g !! a
  = Some (Z.of_nat (length (filter (λ e, e.1 = a) (mjoin pairs)))).
Proof.
  assert (process_dependencies (Some pairs) = mjoin pairs) as Heq.
  { unfold process_dependencies.
    rewrite (foldl_foldl_join
               (λ dependencies '(src_alias, dst_alias),
                  dependencies ++ [(src_alias, dst_alias)])).
    apply foldl_snoc_pairs. }
  rewrite Heq. intros Hg Ha. split_and!; [done..|].
  rewrite (build_graph_lookup _ _ _ a Hg), decide_True by done. simpl.
  unfold prerequisites. by rewrite length_fmap.
Qed.

Lemma process_dependencies_edges_witness :
  let pairs := [[("B", "A")]; [("C", "A")]; [("B", "A")]]%string in
  let g := match build_graph scenario_aliases (process_dependencies (Some pairs)) with
           | Ok g => g
           | _ => ∅
           end in
  build_graph scenario_aliases (process_dependencies (Some pairs)) = Ok g ∧
  "B" ∈ dom scenario_aliases ∧
  process_dependencies (Some pairs) = mjoin pairs ∧
  process_dependencies None = [] ∧
  inbound <$> g !! "B"%string
  = Some (Z.of_nat (length (filter (λ e, e.1 = "B"%string) (mjoin pairs)))).
Proof.
  intros pairs g.
  assert (build_graph scenario_aliases (process_dependencies (Some pairs)) = Ok g)
    as H1 by (vm_compute; reflexivity).
  assert ("B" ∈ dom scenario_aliases) as H2 by by_compute.
  split; [exact H1|]. split; [exact H2|].
  exact (process_dependencies_edges pairs scenario_aliases g "B" H1 H2).
Defined.

(** ** When the polling loop cannot end *)

Lemma terminal_statuses_verdict (statuses : list string) ignore_failed :
  Forall (λ s, is_terminal s = true) statuses →
  resolve_statuses statuses ignore_failed = IN_PROGRESS ↔
  statuses = [] ∨
  (ignore_failed = true ∧ "ABORTED"%string ∈ statuses ∧ "FAILED"%string ∉ statuses).
Proof.
  intros Hterm.
  pose proof (resolve_statuses_SUCCESS statuses ignore_failed) as HS.
  pose proof (resolve_statuses_FAILED statuses ignore_failed) as HF.
  destruct (decide ("FAILED"%string ∈ statuses)) as [Hf|Hf].
  { assert (resolve_statuses statuses ignore_failed = FAILED) as -> by (apply HF; by left).
    split; [done|]. intros [->|(_ & _ & ?)]; [by apply elem_of_nil in Hf | done]. }
  destruct (decide ("ABORTED"%string ∈ statuses)) as [Ha|Ha].
  - destruct ignore_failed.
    + split; [by right|]. intros _.
      assert (resolve_statuses statuses true ≠ SUCCESS) as H1.
      { intros [_ Hall]%HS. rewrite Forall_forall in Hall. by apply Hall in Ha. }
      assert (resolve_statuses statuses true ≠ FAILED) as H2.
      { intros [?|[? _]]%HF; done. }
      by destruct (resolve_statuses statuses true).
    + assert (resolve_statuses statuses false = FAILED) as -> by (apply HF; by right).
      split; [done|]. intros [->|(? & _)]; [by apply elem_of_nil in Ha | done].
  - destruct statuses as [|s statuses];
      [split; [by left | by destruct ignore_failed]|].
    assert (resolve_statuses (s :: statuses) ignore_failed = SUCCESS) as ->.
    { apply HS. split; [done|]. rewrite Forall_forall in Hterm |- *.
      intros x Hx. specialize (Hterm x Hx). unfold is_terminal in Hterm.
      apply bool_decide_eq_true in Hterm.
      repeat (apply elem_of_cons in Hterm as [->|Hterm]; [try done|]).
      by apply elem_of_nil in Hterm. }
    split; [done|]. intros [?|(_ & ? & _)]; done.
Qed.

Section Hang.
Context {Server : Type} (jenkins : Jenkins Server).

(** X19: once every record is in a terminal status, the polling loop either
    ends at the next tick or never: it never ends exactly when there is no
    record at all, or failures are ignored and some record is ABORTED while
    none is FAILED; in that case no further request is sent. *)
Theorem poll_loop_terminal_records items ignore_failed :
  Forall (λ item, is_terminal (status item) = true) items →
  (items = [] ∨
   (ignore_failed = true ∧ "ABORTED"%string ∈ status <$> items
    ∧ "FAILED"%string ∉ status <$> items) →
   ∀ fuel w, poll_loop jenkins fuel items ignore_failed w = (w, OutOfFuel)) ∧
  (¬ (items = [] ∨
      (ignore_failed = true ∧ "ABORTED"%string ∈ status <$> items
       ∧ "FAILED"%string ∉ status <$> items)) →
   ∀ fuel w, ∃ verdict,
     poll_loop jenkins (S fuel) items ignore_failed w = (w, Ok (items, verdict)) ∧
     verdict ≠ IN_PROGRESS).
Proof.
  intros Hterm.
  assert (Forall (λ s, is_terminal s = true) (status <$> items)) as Hst.
  { apply Forall_fmap. by eapply Forall_impl. }
  pose proof (terminal_statuses_verdict _ ignore_failed Hst) as Hv.
  assert (status <$> items = [] ↔ items = []) as Hnil.
  { by destruct items. }
  rewrite Hnil in Hv. split.
  - intros Hcond%Hv. by apply poll_loop_stuck.
  - intros Hcond fuel w.
    exists (resolve_statuses (status <$> items) ignore_failed).
    rewrite poll_loop_S, (poll_tick_terminal jenkins items w Hterm).
    assert (resolve_statuses (status <$> items) ignore_failed ≠ IN_PROGRESS) as Hne
      by (by intros ?%Hv).
    split; [|done]. rewrite bool_decide_eq_true_2; [done|].
    destruct (resolve_statuses _ _); [done | by right; left | by left].
Qed.

End Hang.

Lemma poll_loop_terminal_records_witness :
  let items := [set_status "ABORTED" (fresh_item "job-a");
                set_status "SUCCESS" (fresh_item "job-b")] in
  Forall (λ item, is_terminal (status item) = true) items ∧
  (items = [] ∨
   (true = true ∧ "ABORTED"%string ∈ status <$> items
    ∧ "FAILED"%string ∉ status <$> items) →
   ∀ fuel w, poll_loop all_succeed fuel items true w = (w, OutOfFuel)) ∧
  (¬ (items = [] ∨
      (true = true ∧ "ABORTED"%string ∈ status <$> items
       ∧ "FAILED"%string ∉ status <$> items)) →
   ∀ fuel w, ∃ verdict,
     poll_loop all_succeed (S fuel) items true w = (w, Ok (items, verdict)) ∧
     verdict ≠ IN_PROGRESS).
Proof.
  intros items.
  assert (Forall (λ item, is_terminal (status item) = true) items) as H
    by (repeat constructor).
  split; [exact H|].
  exact (poll_loop_terminal_records all_succeed items true H).
Defined.
